(** * DrawFree: the freehand stroke engine of the canvas component

    A shallow embedding of the [Canvas] component (the second module of
    [src/components/AICenter.tsx], with the types of [types.ts]) and the
    properties its design document states about it.

    Numbers.  A TypeScript [number] is an IEEE double.  The embedding
    idealises the finite doubles as exact reals (no rounding, no overflow,
    no signed zero) and keeps the three non-finite values, so that a
    division by zero yields [NaN] or an infinity exactly where JavaScript
    yields one.  Values that enter the component from outside (brush
    settings, pointer events, the bounding rectangle, the draws of
    [Math.random]) are taken to be finite and have type [R]; every value
    the component computes has type [num].

    Canvas.  The 2D context is modelled as far as the component drives it:
    [fillStyle], [globalAlpha], the current path, and a bitmap over
    continuous coordinates holding premultiplied RGBA (no anti-aliasing),
    with source-over compositing and the exceptions the platform raises on
    bad arguments.  A colour is an opaque [#rrggbb] value, which is what the
    colour input of [App] delivers.

    State.  The refs [lastPoint] and [distRemainder], the React state
    [isDrawing] and the canvas are the fields of one record that the
    handlers pass along; no handler reads [isDrawing] after writing it, so
    the deferred update of React and an immediate one agree.  A handler
    runs in a monad of state, exceptions and fuel: the [while] loop of
    [interpolate] need not end on a distance that is not finite, so it
    takes fuel, and the theorems give the fuel that suffices. *)

From Stdlib Require Import Reals Lra Lia List Bool String ZArith.
Import ListNotations.
Open Scope R_scope.

(** ** JavaScript numbers *)

Inductive num : Type :=
| Fin (r : R)
| PosInf
| NegInf
| NaN.

Module Num.

Definition leb (a b : R) : bool := if Rle_dec a b then true else false.
Definition ltb (a b : R) : bool := if Rlt_dec a b then true else false.
Definition eqb (a b : R) : bool := if Req_dec_T a b then true else false.

Definition neg (a : num) : num :=
  match a with
  | Fin r => Fin (- r)
  | PosInf => NegInf
  | NegInf => PosInf
  | NaN => NaN
  end.

(** [a + b] *)
Definition add (a b : num) : num :=
  match a, b with
  | NaN, _ | _, NaN => NaN
  | Fin x, Fin y => Fin (x + y)
  | PosInf, NegInf | NegInf, PosInf => NaN
  | PosInf, _ | _, PosInf => PosInf
  | NegInf, _ | _, NegInf => NegInf
  end.

(** [a - b] *)
Definition sub (a b : num) : num := add a (neg b).

(** An infinity of the given sign scaled by the finite [r]. *)
Definition scaleInf (positive : bool) (r : R) : num :=
  if eqb r 0 then NaN
  else if xorb positive (ltb r 0) then PosInf else NegInf.

Definition isPos (a : num) : bool :=
  match a with PosInf => true | _ => false end.

(** [a * b] *)
Definition mul (a b : num) : num :=
  match a, b with
  | NaN, _ | _, NaN => NaN
  | Fin x, Fin y => Fin (x * y)
  | Fin x, i => scaleInf (isPos i) x
  | i, Fin y => scaleInf (isPos i) y
  | i, j => if xorb (isPos i) (isPos j) then NegInf else PosInf
  end.

(** [a / b]; a zero divisor is the positive zero. *)
Definition div (a b : num) : num :=
  match a, b with
  | NaN, _ | _, NaN => NaN
  | Fin x, Fin y =>
      if eqb y 0
      then (if eqb x 0 then NaN else if ltb 0 x then PosInf else NegInf)
      else Fin (x / y)
  | Fin _, _ => Fin 0
  | i, Fin y => if xorb (isPos i) (ltb y 0) then PosInf else NegInf
  | _, _ => NaN
  end.

(** [Math.sqrt(a)] *)
Definition sqrt (a : num) : num :=
  match a with
  | Fin x => if ltb x 0 then NaN else Fin (R_sqrt.sqrt x)
  | PosInf => PosInf
  | _ => NaN
  end.

(** [a <= b] *)
Definition le (a b : num) : bool :=
  match a, b with
  | NaN, _ | _, NaN => false
  | Fin x, Fin y => leb x y
  | NegInf, _ | _, PosInf => true
  | _, _ => false
  end.

(** [Math.floor] on a finite value. *)
Definition floorR (r : R) : R := IZR (Int_part r).

(** [Math.floor(a)] *)
Definition floor (a : num) : num :=
  match a with
  | Fin x => Fin (floorR x)
  | other => other
  end.

(** Truthiness of a number: [0] and [NaN] are falsy. *)
Definition truthy (a : num) : bool :=
  match a with
  | Fin x => negb (eqb x 0)
  | NaN => false
  | _ => true
  end.

(** [v || d] for an optional number [v]; [undefined] is falsy. *)
Definition orElse (v : option num) (d : num) : num :=
  match v with
  | Some a => if truthy a then a else d
  | None => d
  end.

End Num.

(** ** types.ts *)

Inductive ToolType : Type :=
| PENCIL | BRUSH | ERASER | FILL | PIXEL | INK | CHARCOAL.

Definition ToolType_eqb (a b : ToolType) : bool :=
  match a, b with
  | PENCIL, PENCIL | BRUSH, BRUSH | ERASER, ERASER | FILL, FILL
  | PIXEL, PIXEL | INK, INK | CHARCOAL, CHARCOAL => true
  | _, _ => false
  end.

(** [pressure] and [tilt] are optional fields. *)
Record Point : Type := mkPoint {
  x : num;
  y : num;
  pressure : option num;
  tilt : option num
}.

(** A colour as the colour input delivers it: [#rrggbb], channels 0..255. *)
Record Color : Type := rgb { cr : R; cg : R; cb : R }.

Record DrawingSettings : Type := mkSettings {
  color : Color;
  size : R;
  opacity : R;
  hardness : R;
  spacing : R;
  jitter : R;
  tool : ToolType;
  isStylus : bool
}.

(** ** The 2D rendering context *)

Module Canvas2D.

(** A colour with its alpha, not premultiplied. *)
Record RGBA : Type := mkRGBA { red : R; green : R; blue : R; alpha : R }.

(** The colour [c] itself, and [c] followed by [00]. *)
Definition opaque (c : Color) : RGBA := mkRGBA (cr c) (cg c) (cb c) 1.
Definition faded (c : Color) : RGBA := mkRGBA (cr c) (cg c) (cb c) 0.
Definition transparentBlack : RGBA := mkRGBA 0 0 0 0.

Record Gradient : Type := mkGradient {
  gx0 : R; gy0 : R; gr0 : R;
  gx1 : R; gy1 : R; gr1 : R;
  stops : list (R * RGBA)
}.

Inductive FillStyle : Type :=
| Solid (c : RGBA)
| Radial (g : Gradient).

(** One bitmap sample, premultiplied. *)
Record Pixel : Type := mkPixel { pr : R; pg : R; pb : R; pa : R }.

Record Circle : Type := mkCircle { ccx : R; ccy : R; crad : R }.

Record Context2D : Type := mkContext {
  fillStyle : FillStyle;
  globalAlpha : R;
  path : list Circle;
  width : R;
  height : R;
  bitmap : R -> R -> Pixel
}.

Inductive Exn : Type := TypeError | IndexSizeError.

Definition Try (A : Type) : Type := (Exn + A)%type.

Definition euclid (x0 y0 x1 y1 : R) : R :=
  R_sqrt.sqrt ((x1 - x0) * (x1 - x0) + (y1 - y0) * (y1 - y0)).

(** Linear interpolation of two stop colours, channel by channel and
    without premultiplying. *)
Definition mix (c1 c2 : RGBA) (u : R) : RGBA :=
  mkRGBA (red c1 + (red c2 - red c1) * u)
         (green c1 + (green c2 - green c1) * u)
         (blue c1 + (blue c2 - blue c1) * u)
         (alpha c1 + (alpha c2 - alpha c1) * u).

(** Colour of a sorted stop list at offset [w]: the first stop's colour
    before it, the last stop's colour after it, interpolated between. *)
Fixpoint colorAt (l : list (R * RGBA)) (w : R) : RGBA :=
  match l with
  | [] => transparentBlack
  | (o1, c1) :: rest =>
      match rest with
      | [] => c1
      | (o2, c2) :: _ =>
          if Num.leb w o1 then c1
          else if Num.ltb w o2 then mix c1 c2 ((w - o1) / (o2 - o1))
          else colorAt rest w
      end
  end.

(** Stops are kept sorted by offset, equal offsets in insertion order. *)
Fixpoint insertStop (o : R) (c : RGBA) (l : list (R * RGBA)) : list (R * RGBA) :=
  match l with
  | [] => [(o, c)]
  | (o', c') :: tl =>
      if Num.ltb o o' then (o, c) :: l else (o', c') :: insertStop o c tl
  end.

(** [ctx.createRadialGradient(x0, y0, r0, x1, y1, r1)]: a non-finite
    argument is a [TypeError], a negative radius an [IndexSizeError]. *)
Definition createRadialGradient (x0 y0 r0 x1 y1 r1 : num) : Try Gradient :=
  match x0, y0, r0, x1, y1, r1 with
  | Fin a0, Fin b0, Fin c0, Fin a1, Fin b1, Fin c1 =>
      if Num.ltb c0 0 || Num.ltb c1 0 then inl IndexSizeError
      else inr (mkGradient a0 b0 c0 a1 b1 c1 [])
  | _, _, _, _, _, _ => inl TypeError
  end.

(** [gradient.addColorStop(offset, color)]: an offset outside [0, 1] is
    an [IndexSizeError]. *)
Definition addColorStop (g : Gradient) (offset : R) (c : RGBA) : Try Gradient :=
  if Num.ltb offset 0 || Num.ltb 1 offset then inl IndexSizeError
  else inr (mkGradient (gx0 g) (gy0 g) (gr0 g) (gx1 g) (gy1 g) (gr1 g)
                       (insertStop offset c (stops g))).

(** Colour a fill style gives the point [(px, py)].  A gradient is given
    its meaning for concentric circles, the only form the component
    builds; with equal radii, or circles that are not concentric, it is
    taken to paint nothing. *)
Definition paintAt (f : FillStyle) (px py : R) : RGBA :=
  match f with
  | Solid c => c
  | Radial g =>
      if Num.eqb (gx0 g) (gx1 g) && Num.eqb (gy0 g) (gy1 g)
         && negb (Num.eqb (gr0 g) (gr1 g))
      then colorAt (stops g)
                   ((euclid (gx0 g) (gy0 g) px py - gr0 g) / (gr1 g - gr0 g))
      else transparentBlack
  end.

(** Source-over compositing of colour [c] at global alpha [ga] onto [d]. *)
Definition over (c : RGBA) (ga : R) (d : Pixel) : Pixel :=
  let a := alpha c * ga in
  mkPixel (red c * a + pr d * (1 - a))
          (green c * a + pg d * (1 - a))
          (blue c * a + pb d * (1 - a))
          (a + pa d * (1 - a)).

Definition inBitmap (c : Context2D) (px py : R) : bool :=
  Num.leb 0 px && Num.ltb px (width c) && Num.leb 0 py && Num.ltb py (height c).

(** Paint the region [inside] with the current fill style. *)
Definition paintRegion (inside : R -> R -> bool) (c : Context2D) : Context2D :=
  mkContext (fillStyle c) (globalAlpha c) (path c) (width c) (height c)
    (fun px py =>
       if inside px py && inBitmap c px py
       then over (paintAt (fillStyle c) px py) (globalAlpha c) (bitmap c px py)
       else bitmap c px py).

(** [ctx.fillStyle = f] *)
Definition setFillStyle (f : FillStyle) (c : Context2D) : Context2D :=
  mkContext f (globalAlpha c) (path c) (width c) (height c) (bitmap c).

(** [ctx.globalAlpha = a]: a value outside [0, 1] is ignored. *)
Definition setGlobalAlpha (a : R) (c : Context2D) : Context2D :=
  if Num.leb 0 a && Num.leb a 1
  then mkContext (fillStyle c) a (path c) (width c) (height c) (bitmap c)
  else c.

Definition inRect (x0 y0 w h px py : R) : bool :=
  Num.leb (Rmin x0 (x0 + w)) px && Num.ltb px (Rmax x0 (x0 + w))
  && Num.leb (Rmin y0 (y0 + h)) py && Num.ltb py (Rmax y0 (y0 + h)).

(** [ctx.fillRect(x, y, w, h)]: nothing is drawn when an argument is not
    finite or a side is zero. *)
Definition fillRect (x0 y0 w h : num) (c : Context2D) : Context2D :=
  match x0, y0, w, h with
  | Fin a, Fin b, Fin w', Fin h' =>
      if Num.eqb w' 0 || Num.eqb h' 0 then c
      else paintRegion (inRect a b w' h') c
  | _, _, _, _ => c
  end.

(** [ctx.beginPath()] *)
Definition beginPath (c : Context2D) : Context2D :=
  mkContext (fillStyle c) (globalAlpha c) [] (width c) (height c) (bitmap c).

(** [ctx.arc(x, y, r, 0, Math.PI * 2)], the full circle, which is the
    only arc the component draws: skipped when an argument is not
    finite, an [IndexSizeError] when the radius is negative. *)
Definition arc (cx cy r : num) (c : Context2D) : Try Context2D :=
  match cx, cy, r with
  | Fin a, Fin b, Fin r' =>
      if Num.ltb r' 0 then inl IndexSizeError
      else inr (mkContext (fillStyle c) (globalAlpha c)
                          (path c ++ [mkCircle a b r'])
                          (width c) (height c) (bitmap c))
  | _, _, _ => inr c
  end.

Definition inCircle (k : Circle) (px py : R) : bool :=
  Num.leb (euclid (ccx k) (ccy k) px py) (crad k).

Definition inPath (p : list Circle) (px py : R) : bool :=
  existsb (fun k => inCircle k px py) p.

(** [ctx.fill()] *)
Definition fill (c : Context2D) : Context2D :=
  paintRegion (inPath (path c)) c.

(** [ctx.drawImage(img, 0, 0, canvas.width, canvas.height)] for an image
    already scaled to the bitmap: [img px py] is its premultiplied
    sample at [(px, py)]. *)
Definition drawImage (img : R -> R -> Pixel) (c : Context2D) : Context2D :=
  mkContext (fillStyle c) (globalAlpha c) (path c) (width c) (height c)
    (fun px py =>
       if inBitmap c px py
       then let s := img px py in
            let d := bitmap c px py in
            let a := pa s * globalAlpha c in
            mkPixel (pr s * globalAlpha c + pr d * (1 - a))
                    (pg s * globalAlpha c + pg d * (1 - a))
                    (pb s * globalAlpha c + pb d * (1 - a))
                    (a + pa d * (1 - a))
       else bitmap c px py).

End Canvas2D.

(** ** The Canvas component *)

Module PointerEvent.
(** The fields of a pointer event the component reads. *)
Record t : Type := mk {
  clientX : R;
  clientY : R;
  pressure : R;
  tiltX : R
}.
End PointerEvent.

(** The mounted canvas element: the origin of its bounding client
    rectangle and its 2D context. *)
Record CanvasElement : Type := mkCanvas {
  rectLeft : R;
  rectTop : R;
  context : Canvas2D.Context2D
}.

(** A decoded image, sampled at the coordinates of the bitmap. *)
Definition Image : Type := R -> R -> Canvas2D.Pixel.

(** The state the component keeps between events.  [stamps] is a ghost
    field: the arguments of the calls of [drawStamp], oldest first. *)
Record State : Type := mkState {
  canvas : option CanvasElement;      (* canvasRef.current *)
  isDrawing : bool;
  lastPoint : option Point;           (* lastPoint.current *)
  distRemainder : num;                (* distRemainder.current *)
  strokeEnds : nat;                   (* calls of onStrokeEnd so far *)
  randomDraws : nat;                  (* calls of Math.random so far *)
  pendingImages : list string;        (* images whose src is set, not yet settled *)
  stamps : list Point
}.

(** What running a piece of the component on a state gives: a value, an
    exception (the state keeps what was done before it), or a loop that
    was cut short. *)
Inductive Outcome (A : Type) : Type :=
| Ret (a : A) (s : State)
| Throw (e : Canvas2D.Exn) (s : State)
| OutOfFuel.
Arguments Ret {A} a s.
Arguments Throw {A} e s.
Arguments OutOfFuel {A}.

Definition M (A : Type) : Type := State -> Outcome A.

Definition ret {A : Type} (a : A) : M A := fun s => Ret a s.

Definition bind {A B : Type} (m : M A) (k : A -> M B) : M B :=
  fun s =>
    match m s with
    | Ret a s' => k a s'
    | Throw e s' => Throw e s'
    | OutOfFuel => OutOfFuel
    end.

Declare Scope canvas_scope.
Delimit Scope canvas_scope with canvas.
Notation "v <- m ;; k" := (bind m (fun v => k))
  (at level 61, m at next level, right associativity) : canvas_scope.
Notation "m ;; k" := (bind m (fun _ => k))
  (at level 61, right associativity) : canvas_scope.
Open Scope canvas_scope.

Definition get {A : Type} (f : State -> A) : M A := fun s => Ret (f s) s.
Definition modify (f : State -> State) : M unit := fun s => Ret tt (f s).
Definition tryM {A : Type} (t : Canvas2D.Try A) : M A :=
  fun s => match t with inr a => Ret a s | inl e => Throw e s end.

Definition withCanvas (c : option CanvasElement) (s : State) : State :=
  mkState c (isDrawing s) (lastPoint s) (distRemainder s) (strokeEnds s)
          (randomDraws s) (pendingImages s) (stamps s).
Definition withIsDrawing (b : bool) (s : State) : State :=
  mkState (canvas s) b (lastPoint s) (distRemainder s) (strokeEnds s)
          (randomDraws s) (pendingImages s) (stamps s).
Definition withLastPoint (p : option Point) (s : State) : State :=
  mkState (canvas s) (isDrawing s) p (distRemainder s) (strokeEnds s)
          (randomDraws s) (pendingImages s) (stamps s).
Definition withDistRemainder (d : num) (s : State) : State :=
  mkState (canvas s) (isDrawing s) (lastPoint s) d (strokeEnds s)
          (randomDraws s) (pendingImages s) (stamps s).
Definition withStrokeEnds (n : nat) (s : State) : State :=
  mkState (canvas s) (isDrawing s) (lastPoint s) (distRemainder s) n
          (randomDraws s) (pendingImages s) (stamps s).
Definition withRandomDraws (n : nat) (s : State) : State :=
  mkState (canvas s) (isDrawing s) (lastPoint s) (distRemainder s) (strokeEnds s)
          n (pendingImages s) (stamps s).
Definition withPendingImages (l : list string) (s : State) : State :=
  mkState (canvas s) (isDrawing s) (lastPoint s) (distRemainder s) (strokeEnds s)
          (randomDraws s) l (stamps s).
Definition withStamps (l : list Point) (s : State) : State :=
  mkState (canvas s) (isDrawing s) (lastPoint s) (distRemainder s) (strokeEnds s)
          (randomDraws s) (pendingImages s) l.

Definition withContext (c : Canvas2D.Context2D) (s : State) : State :=
  match canvas s with
  | Some cv => withCanvas (Some (mkCanvas (rectLeft cv) (rectTop cv) c)) s
  | None => s
  end.

(** [canvasRef.current?.getContext('2d')] *)
Definition getContext : M (option Canvas2D.Context2D) :=
  get (fun s => option_map context (canvas s)).

(** A call on the 2D context. *)
Definition onCtx (f : Canvas2D.Context2D -> Canvas2D.Context2D) : M unit :=
  fun s =>
    match canvas s with
    | Some cv => Ret tt (withContext (f (context cv)) s)
    | None => Ret tt s
    end.

(** A call on the 2D context that may raise. *)
Definition onCtxTry (f : Canvas2D.Context2D -> Canvas2D.Try Canvas2D.Context2D) : M unit :=
  fun s =>
    match canvas s with
    | Some cv =>
        match f (context cv) with
        | inr c => Ret tt (withContext c s)
        | inl e => Throw e s
        end
    | None => Ret tt s
    end.

(** The canvas background, [#F5F5DC]. *)
Definition background : Color := rgb 245 245 220.

Section Canvas.

(** The props of the current render and the environment: the brush
    settings, the successive results of [Math.random], and the image
    decoder of the browser ([None] when the data does not decode). *)
Variable settings : DrawingSettings.
Variable random : nat -> R.
Variable decode : string -> option Image.

(** [Math.random()] *)
Definition mathRandom : M num :=
  fun s => Ret (Fin (random (randomDraws s)))
               (withRandomDraws (S (randomDraws s)) s).

(** [loadImage]: creates an image, installs [onload] and sets [src].
    Only [onload] is installed; the load settles later, in
    [imageSettled]. *)
Definition loadImage (base64 : string) : M unit :=
  ctx <- getContext ;;
  match ctx with
  | Some _ =>
      modify (fun s => withPendingImages
                         (pendingImages s ++ ["data:image/png;base64," ++ base64]%string) s)
  | None => ret tt
  end.

(** The browser settles the oldest pending image: [onload] runs when its
    data decoded, and no listener runs when it did not. *)
Definition imageSettled : M unit :=
  pending <- get pendingImages ;;
  match pending with
  | [] => ret tt
  | src :: rest =>
      modify (withPendingImages rest) ;;
      match decode src with
      | Some img => onCtx (Canvas2D.drawImage img)
      | None => ret tt
      end
  end.

Definition getCoordinates (e : PointerEvent.t) : M Point :=
  cv <- get canvas ;;
  match cv with
  | None => ret (mkPoint (Fin 0) (Fin 0) None None)
  | Some rect =>
      ret (mkPoint
             (Fin (PointerEvent.clientX e - rectLeft rect))
             (Fin (PointerEvent.clientY e - rectTop rect))
             (Some (Fin (if negb (Num.eqb (PointerEvent.pressure e) 0)
                         then PointerEvent.pressure e else 1 / 2)))
             (Some (Fin (PointerEvent.tiltX e))))
  end.

(** The locals [pressure] and [size] of [drawStamp]. *)
Definition stampPressure (pt : Point) : num :=
  if isStylus settings then Num.orElse (pressure pt) (Fin (1 / 2)) else Fin 1.

Definition stampSize (pt : Point) : num :=
  Num.mul (Fin (size settings)) (stampPressure pt).

(** The local [pixelSize] of the pixel branch. *)
Definition pixelSize : R := Rmax 1 (Num.floorR (size settings / 2)).

(** [(Math.random() - 0.5) * settings.jitter * size * 2] *)
Definition jitterOffset (rnd sz : num) : num :=
  Num.mul (Num.mul (Num.mul (Num.sub rnd (Fin (1 / 2))) (Fin (jitter settings))) sz)
          (Fin 2).

Definition drawStamp (pt : Point) : M unit :=
  modify (fun s => withStamps (stamps s ++ [pt]) s) ;;
  ctx <- getContext ;;
  match ctx with
  | None => ret tt
  | Some _ =>
      let sz := stampSize pt in
      if ToolType_eqb (tool settings) PIXEL then
        (* Pixel Art Logic *)
        let px := Num.mul (Num.floor (Num.div (x pt) (Fin pixelSize))) (Fin pixelSize) in
        let py := Num.mul (Num.floor (Num.div (y pt) (Fin pixelSize))) (Fin pixelSize) in
        onCtx (Canvas2D.setFillStyle
                 (Canvas2D.Solid
                    (Canvas2D.opaque
                       (if ToolType_eqb (tool settings) ERASER
                        then background else color settings)))) ;;
        onCtx (Canvas2D.setGlobalAlpha 1) ;;
        onCtx (Canvas2D.fillRect px py (Fin pixelSize) (Fin pixelSize))
      else
        (* Advanced Brush Logic *)
        let isEraser := ToolType_eqb (tool settings) ERASER in
        j <- (if Num.ltb 0 (jitter settings)
              then r1 <- mathRandom ;;
                   r2 <- mathRandom ;;
                   ret (jitterOffset r1 sz, jitterOffset r2 sz)
              else ret (Fin 0, Fin 0)) ;;
        let drawX := Num.add (x pt) (fst j) in
        let drawY := Num.add (y pt) (snd j) in
        onCtx (Canvas2D.setGlobalAlpha (opacity settings)) ;;
        if Num.ltb (hardness settings) 1 then
          (* Soft Brush *)
          g0 <- tryM (Canvas2D.createRadialGradient
                        drawX drawY (Fin 0) drawX drawY (Num.div sz (Fin 2))) ;;
          let col := if isEraser then background else color settings in
          g1 <- tryM (Canvas2D.addColorStop g0 (hardness settings)
                                            (Canvas2D.opaque col)) ;;
          g2 <- tryM (Canvas2D.addColorStop g1 1
                        (if isEraser then Canvas2D.mkRGBA 245 245 220 0
                         else Canvas2D.faded col)) ;;
          onCtx (Canvas2D.setFillStyle (Canvas2D.Radial g2)) ;;
          onCtx Canvas2D.beginPath ;;
          onCtxTry (Canvas2D.arc drawX drawY (Num.div sz (Fin 2))) ;;
          onCtx Canvas2D.fill
        else
          (* Hard Brush *)
          onCtx (Canvas2D.setFillStyle
                   (Canvas2D.Solid
                      (Canvas2D.opaque (if isEraser then background else color settings)))) ;;
          onCtx Canvas2D.beginPath ;;
          onCtxTry (Canvas2D.arc drawX drawY (Num.div sz (Fin 2))) ;;
          onCtx Canvas2D.fill
  end.

Definition startDrawing (e : PointerEvent.t) : M unit :=
  modify (withIsDrawing true) ;;
  point <- getCoordinates e ;;
  modify (withLastPoint (Some point)) ;;
  modify (withDistRemainder (Fin 0)) ;;
  drawStamp point.

(** The [while] loop of [interpolate]; every test of its condition takes
    one unit of fuel. *)
Fixpoint interpolateLoop (fuel : nat) (start end_ : Point) (dx dy dist : num)
         (step : R) (currentDist : num) : M num :=
  match fuel with
  | O => fun _ => OutOfFuel
  | S fuel' =>
      if Num.le currentDist dist then
        let t := Num.div currentDist dist in
        let px := Num.add (x start) (Num.mul dx t) in
        let py := Num.add (y start) (Num.mul dy t) in
        let startP := Num.orElse (pressure start) (Fin (1 / 2)) in
        let endP := Num.orElse (pressure end_) (Fin (1 / 2)) in
        let p := Num.add startP (Num.mul (Num.sub endP startP) t) in
        drawStamp (mkPoint px py (Some p) None) ;;
        interpolateLoop fuel' start end_ dx dy dist step
                        (Num.add currentDist (Fin step))
      else ret currentDist
  end.

Definition segmentLength (start end_ : Point) : num :=
  let dx := Num.sub (x end_) (x start) in
  let dy := Num.sub (y end_) (y start) in
  Num.sqrt (Num.add (Num.mul dx dx) (Num.mul dy dy)).

(** The local [step] of [interpolate]. *)
Definition stepSize : R := Rmax (1 / 2) (size settings * spacing settings).

Definition interpolate (fuel : nat) (start end_ : Point) : M unit :=
  let dx := Num.sub (x end_) (x start) in
  let dy := Num.sub (y end_) (y start) in
  let dist := segmentLength start end_ in
  let step := stepSize in
  carry <- get distRemainder ;;
  currentDist <- interpolateLoop fuel start end_ dx dy dist step carry ;;
  modify (withDistRemainder (Num.sub currentDist dist)).

Definition continueDrawing (fuel : nat) (e : PointerEvent.t) : M unit :=
  drawing <- get isDrawing ;;
  last <- get lastPoint ;;
  match drawing, last with
  | true, Some lastPt =>
      currentPoint <- getCoordinates e ;;
      (if ToolType_eqb (tool settings) PIXEL
       then drawStamp currentPoint
       else interpolate fuel lastPt currentPoint) ;;
      modify (withLastPoint (Some currentPoint))
  | _, _ => ret tt
  end.

Definition stopDrawing : M unit :=
  drawing <- get isDrawing ;;
  if drawing then
    modify (withIsDrawing false) ;;
    modify (withLastPoint None) ;;
    modify (fun s => withStrokeEnds (S (strokeEnds s)) s)
  else ret tt.

(** The events the canvas element listens to. *)
Inductive Event : Type :=
| PointerDown (e : PointerEvent.t)
| PointerMove (e : PointerEvent.t)
| PointerUp
| PointerLeave.

Definition handler (fuel : nat) (ev : Event) : M unit :=
  match ev with
  | PointerDown e => startDrawing e
  | PointerMove e => continueDrawing fuel e
  | PointerUp | PointerLeave => stopDrawing
  end.

(** One event: an exception that escapes a handler ends that handler
    only, the state keeps what it did. *)
Definition dispatch (fuel : nat) (ev : Event) (s : State) : option State :=
  match handler fuel ev s with
  | Ret _ s' | Throw _ s' => Some s'
  | OutOfFuel => None
  end.



End Canvas.

(** * The vocabulary of the statements *)

(** ** Sample data *)

(** The settings [App] starts with. *)
Definition defaultSettings : DrawingSettings :=
  mkSettings (rgb 28 25 23) 10 1 1 (1 / 10) 0 PENCIL false.


(** Size 20 at hardness one half, the example of the design document. *)
Definition softSettings : DrawingSettings :=
  mkSettings (rgb 28 25 23) 20 1 (1 / 2) (1 / 10) 0 BRUSH false.

(** The default brush switched to the pixel tool. *)
Definition pixelSettings : DrawingSettings :=
  mkSettings (rgb 28 25 23) 10 1 1 (1 / 10) 0 PIXEL false.

(** The context after the mount effect filled a [w] by [h] bitmap with the
    background. *)
Definition mountedContext (w h : R) : Canvas2D.Context2D :=
  Canvas2D.mkContext (Canvas2D.Solid (Canvas2D.opaque background)) 1 [] w h
                     (fun _ _ => Canvas2D.mkPixel 245 245 220 1).

(** The component after mounting, before any event. *)
Definition mounted (left top w h : R) : State :=
  mkState (Some (mkCanvas left top (mountedContext w h)))
          false None (Fin 0) 0 0 [] [].

(** A stroke in progress whose last move left half a pixel of remainder. *)
Definition midStroke : State :=
  mkState (Some (mkCanvas 0 0 (mountedContext 200 50)))
          true (Some (mkPoint (Fin 3) (Fin 4) (Some (Fin (1 / 2))) (Some (Fin 0))))
          (Fin (1 / 2)) 0 0 [] [].

(** The point every coordinate of which is [NaN]. *)
Definition nanStamp : Point := mkPoint NaN NaN (Some NaN) None.

(** ** What a computation leaves alone *)

(** [s'] differs from [s] in the 2D context and the count of random draws
    at most. *)
Definition sameRefs (s s' : State) : Prop :=
  isDrawing s' = isDrawing s /\
  lastPoint s' = lastPoint s /\
  distRemainder s' = distRemainder s /\
  strokeEnds s' = strokeEnds s /\
  pendingImages s' = pendingImages s /\
  stamps s' = stamps s /\
  option_map rectLeft (canvas s') = option_map rectLeft (canvas s) /\
  option_map rectTop (canvas s') = option_map rectTop (canvas s).

(** [m] ends, normally or by an exception, in a state with the same refs. *)
Definition keepsRefs {A : Type} (m : M A) : Prop :=
  forall s, match m s with
            | Ret _ s' | Throw _ s' => sameRefs s s'
            | OutOfFuel => False
            end.

(** ** Pressure and radius *)

(** A pressure as the data model has it: absent, or a real that is not
    negative. *)
Definition pressureOK (p : option R) : Prop :=
  match p with
  | Some v => 0 <= v
  | None => True
  end.

(** [v || 0.5] on a finite optional pressure: zero and absent both count
    as one half. *)
Definition effectivePressure (p : option R) : R :=
  match p with
  | Some v => if Num.eqb v 0 then 1 / 2 else v
  | None => 1 / 2
  end.

(** The radius of the disc of a stamp, from the size and the pressure the
    code takes for it. *)
Definition stampRadius (st : DrawingSettings) (p : option R) : R :=
  size st * (if isStylus st then effectivePressure p else 1) / 2.


(** The jitter offset for the draw [u] of [Math.random] and stamp size [z];
    no draw is made when [jitter] is not positive. *)
Definition jitterR (st : DrawingSettings) (u z : R) : R :=
  if Num.ltb 0 (jitter st) then (u - 1 / 2) * jitter st * z * 2 else 0.

(** ** Stamps along a segment *)

Definition lerp (a b u : R) : R := a + (b - a) * u.

(** The stamp [interpolate] makes at distance [t] along a segment of
    length [len]: position and effective pressure interpolated linearly at
    [t / len]. *)
Definition interpolatedStamp (x0 y0 x1 y1 : R) (p0 p1 : option R) (len t : R) : Point :=
  mkPoint (Fin (lerp x0 x1 (t / len)))
          (Fin (lerp y0 y1 (t / len)))
          (Some (Fin (lerp (effectivePressure p0) (effectivePressure p1) (t / len))))
          None.


(** [n] is the number of the distances [c], [c + step], [c + 2 * step], ...
    that do not exceed [len]. *)
Definition walks (c step len : R) (n : nat) : Prop :=
  (forall k, (k < n)%nat -> c + INR k * step <= len) /\ len < c + INR n * step.

(** ** Polylines *)

(** A point with finite coordinates, as [getCoordinates] makes them. *)
Record Sample : Type := mkSample {
  sx : R;
  sy : R;
  sp : option R;
  stilt : option num
}.


(** Length of the segment from [p] to [q]. *)
Definition gap (p q : Sample) : R := Canvas2D.euclid (sx p) (sy p) (sx q) (sy q).

(** Length of the polyline from [p] through [rest]. *)
Fixpoint pathLength (p : Sample) (rest : list Sample) : R :=
  match rest with
  | [] => 0
  | q :: rest' => gap p q + pathLength q rest'
  end.


(** The point at fraction [u] of the way from [p] to [q]. *)
Definition along (p q : Sample) (u : R) : Sample :=
  mkSample (sx p + u * (sx q - sx p)) (sy p + u * (sy q - sy p)) None None.

(** The fractions [us] ascend from [u0] and stay below 1. *)
Fixpoint ascending (u0 : R) (us : list R) : Prop :=
  match us with
  | [] => u0 <= 1
  | u :: rest => u0 <= u /\ ascending u rest
  end.

(** * Properties *)

(** ** Comparisons of reals *)

Lemma leb_true (a b : R) : a <= b -> Num.leb a b = true.
Proof. unfold Num.leb; destruct (Rle_dec a b); [reflexivity | lra]. Qed.

Lemma leb_false (a b : R) : b < a -> Num.leb a b = false.
Proof. unfold Num.leb; destruct (Rle_dec a b); [lra | reflexivity]. Qed.

Lemma ltb_true (a b : R) : a < b -> Num.ltb a b = true.
Proof. unfold Num.ltb; destruct (Rlt_dec a b); [reflexivity | lra]. Qed.

Lemma ltb_false (a b : R) : b <= a -> Num.ltb a b = false.
Proof. unfold Num.ltb; destruct (Rlt_dec a b); [lra | reflexivity]. Qed.

Lemma eqb_true (a b : R) : a = b -> Num.eqb a b = true.
Proof. unfold Num.eqb; destruct (Req_dec_T a b); [reflexivity | contradiction]. Qed.

Lemma eqb_false (a b : R) : a <> b -> Num.eqb a b = false.
Proof. unfold Num.eqb; destruct (Req_dec_T a b); [contradiction | reflexivity]. Qed.

Lemma ltb_spec (a b : R) : Num.ltb a b = true <-> a < b.
Proof. unfold Num.ltb; destruct (Rlt_dec a b); split; intros; try lra; discriminate. Qed.

Lemma stepSize_pos (st : DrawingSettings) : 1 / 2 <= stepSize st.
Proof. unfold stepSize. apply Rmax_l. Qed.

Lemma pixelSize_pos (st : DrawingSettings) : 1 <= pixelSize st.
Proof. unfold pixelSize. apply Rmax_l. Qed.

(** ** What a handler leaves alone *)

Lemma sameRefs_refl (s : State) : sameRefs s s.
Proof. unfold sameRefs; tauto. Qed.

Lemma sameRefs_trans (s1 s2 s3 : State) :
  sameRefs s1 s2 -> sameRefs s2 s3 -> sameRefs s1 s3.
Proof.
  unfold sameRefs; intros H1 H2.
  decompose [and] H1; decompose [and] H2; clear H1 H2.
  repeat split; congruence.
Qed.

Lemma keepsRefs_ret {A : Type} (a : A) : keepsRefs (ret a).
Proof. intros s; apply sameRefs_refl. Qed.

Lemma keepsRefs_bind {A B : Type} (m : M A) (k : A -> M B) :
  keepsRefs m -> (forall a, keepsRefs (k a)) -> keepsRefs (bind m k).
Proof.
  intros Hm Hk s. unfold bind. specialize (Hm s).
  destruct (m s) as [a s1 | e s1 | ]; try assumption.
  specialize (Hk a s1).
  destruct (k a s1) as [b s2 | e s2 | ]; try assumption;
    eapply sameRefs_trans; eassumption.
Qed.

Lemma keepsRefs_tryM {A : Type} (t : Canvas2D.Try A) : keepsRefs (tryM t).
Proof. intros s; unfold tryM; destruct t; apply sameRefs_refl. Qed.

Lemma keepsRefs_getContext : keepsRefs getContext.
Proof. intros s; apply sameRefs_refl. Qed.

Lemma keepsRefs_onCtx (f : Canvas2D.Context2D -> Canvas2D.Context2D) :
  keepsRefs (onCtx f).
Proof.
  intros s; unfold onCtx, withContext.
  destruct (canvas s) as [cv|] eqn:E; [| apply sameRefs_refl].
  unfold sameRefs; cbn; rewrite E; cbn; tauto.
Qed.

Lemma keepsRefs_onCtxTry (f : Canvas2D.Context2D -> Canvas2D.Try Canvas2D.Context2D) :
  keepsRefs (onCtxTry f).
Proof.
  intros s; unfold onCtxTry, withContext.
  destruct (canvas s) as [cv|] eqn:E; [| apply sameRefs_refl].
  destruct (f (context cv)); [apply sameRefs_refl |].
  unfold sameRefs; cbn; rewrite E; cbn; tauto.
Qed.

Lemma keepsRefs_mathRandom (rnd : nat -> R) : keepsRefs (mathRandom rnd).
Proof. intros s; unfold mathRandom, sameRefs; cbn; tauto. Qed.

(** [drawStamp], however it ends, records its argument and touches nothing
    but the 2D context and the random draws. *)
Lemma drawStamp_frame (st : DrawingSettings) (rnd : nat -> R) (pt : Point) (s : State) :
  match drawStamp st rnd pt s with
  | Ret _ s' | Throw _ s' =>
      sameRefs (withStamps (stamps s ++ [pt]) s) s'
  | OutOfFuel => False
  end.
Proof.
  unfold drawStamp at 1.
  unfold bind at 1. unfold modify at 1.
  set (s0 := withStamps (stamps s ++ [pt]) s).
  match goal with |- match ?m s0 with _ => _ end => assert (K : keepsRefs m) end.
  2: exact (K s0).
  apply keepsRefs_bind; [apply keepsRefs_getContext |].
  intros [c|]; [| apply keepsRefs_ret].
  repeat first
    [ apply keepsRefs_ret
    | apply keepsRefs_onCtx
    | apply keepsRefs_onCtxTry
    | apply keepsRefs_tryM
    | apply keepsRefs_mathRandom
    | apply keepsRefs_bind
    | match goal with
      | |- keepsRefs (if ?b then _ else _) => destruct b
      | |- forall _, keepsRefs _ => intro
      end ].
Qed.

(** ** The stroke state machine *)

(** [getCoordinates] reads the state and leaves it as it is. *)
Lemma getCoordinates_mounted (e : PointerEvent.t) (s : State) (cv : CanvasElement) :
  canvas s = Some cv ->
  getCoordinates e s =
    Ret (mkPoint (Fin (PointerEvent.clientX e - rectLeft cv))
                 (Fin (PointerEvent.clientY e - rectTop cv))
                 (Some (Fin (if negb (Num.eqb (PointerEvent.pressure e) 0)
                             then PointerEvent.pressure e else 1 / 2)))
                 (Some (Fin (PointerEvent.tiltX e)))) s.
Proof. intros E. unfold getCoordinates, bind, get. rewrite E. reflexivity. Qed.

Lemma getCoordinates_pure (e : PointerEvent.t) (s : State) :
  exists p, getCoordinates e s = Ret p s.
Proof.
  unfold getCoordinates, bind, get.
  destruct (canvas s); eexists; reflexivity.
Qed.

(** A pointerDown, however its stamp ends: the stroke is active, the
    start point is recorded and stamped once, the remainder is zero. *)
Lemma startDrawing_spec (st : DrawingSettings) (rnd : nat -> R)
      (e : PointerEvent.t) (s : State) (p : Point) :
  getCoordinates e s = Ret p s ->
  match startDrawing st rnd e s with
  | Ret _ s' | Throw _ s' =>
      isDrawing s' = true /\ lastPoint s' = Some p /\
      distRemainder s' = Fin 0 /\ stamps s' = stamps s ++ [p] /\
      strokeEnds s' = strokeEnds s
  | OutOfFuel => False
  end.
Proof.
  intros G. unfold startDrawing, bind, modify.
  assert (G' : getCoordinates e (withIsDrawing true s) = Ret p (withIsDrawing true s)).
  { revert G. unfold getCoordinates, bind, get, ret. cbn.
    destruct (canvas s); intros G; inversion G; reflexivity. }
  rewrite G'.
  match goal with |- match drawStamp _ _ _ ?s0 with _ => _ end =>
    pose proof (drawStamp_frame st rnd p s0) as F;
    destruct (drawStamp st rnd p s0) as [u s1 | ex s1 | ]
  end; try contradiction;
    unfold sameRefs in F; cbn in F; decompose [and] F; repeat split; assumption.
Qed.

(** C10: a pointerMove that arrives while no stroke is active ([isDrawing]
    is false or [lastPoint] is empty) changes nothing: no stamp, the same
    canvas, the same [lastPoint] and [distRemainder]. *)
Theorem continueDrawing_idle_is_noop (st : DrawingSettings) (rnd : nat -> R)
        (fuel : nat) (e : PointerEvent.t) (s : State) :
  isDrawing s = false \/ lastPoint s = None ->
  continueDrawing st rnd fuel e s = Ret tt s.
Proof.
  intros H. unfold continueDrawing, bind, get.
  destruct (isDrawing s), (lastPoint s); try reflexivity.
  destruct H; discriminate.
Qed.

Lemma continueDrawing_idle_is_noop_witness :
  (isDrawing (mounted 0 0 200 50) = false \/ lastPoint (mounted 0 0 200 50) = None) /\
  continueDrawing defaultSettings (fun _ => 0) 0 (PointerEvent.mk 3 4 0 0)
                  (mounted 0 0 200 50)
  = Ret tt (mounted 0 0 200 50).
Proof.
  split; [left; reflexivity |].
  apply (continueDrawing_idle_is_noop defaultSettings (fun _ => 0) 0
           (PointerEvent.mk 3 4 0 0) (mounted 0 0 200 50)).
  left; reflexivity.
Defined.

(** C4, as stated, fails: the pointerUp of an active stroke leaves
    [distRemainder] at the value the last move gave it. *)
Lemma stopDrawing_keeps_remainder :
  exists s', stopDrawing midStroke = Ret tt s' /\
             isDrawing s' = false /\ lastPoint s' = None /\
             distRemainder s' = Fin (1 / 2) /\ distRemainder s' <> Fin 0.
Proof.
  eexists. split; [reflexivity |]. cbn.
  repeat split. intros H. injection H. lra.
Qed.

(** C4, amended: the pointerUp / pointerLeave of an active stroke makes
    the stroke inactive, clears [lastPoint] and notifies the host once;
    [distRemainder], the canvas and the stamps are left as they were, and
    it is the next pointerDown that sets [distRemainder] to zero. *)
Theorem stopDrawing_active (st : DrawingSettings) (rnd : nat -> R)
        (fuel : nat) (e : PointerEvent.t) (s : State) :
  isDrawing s = true ->
  exists s1,
    stopDrawing s = Ret tt s1 /\
    handler st rnd fuel PointerUp = stopDrawing /\
    handler st rnd fuel PointerLeave = stopDrawing /\
    isDrawing s1 = false /\ lastPoint s1 = None /\
    strokeEnds s1 = S (strokeEnds s) /\
    distRemainder s1 = distRemainder s /\
    canvas s1 = canvas s /\ stamps s1 = stamps s /\
    exists s2, dispatch st rnd fuel (PointerDown e) s1 = Some s2 /\
               distRemainder s2 = Fin 0.
Proof.
  intros A. unfold stopDrawing, bind, get, modify. rewrite A.
  eexists. split; [reflexivity |]. cbn.
  repeat (split; [reflexivity |]).
  unfold dispatch, handler.
  match goal with |- context [startDrawing st rnd e ?s0] =>
    destruct (getCoordinates_pure e s0) as [p G];
    pose proof (startDrawing_spec st rnd e s0 p G) as K;
    destruct (startDrawing st rnd e s0) as [u s2 | ex s2 | ]
  end; try contradiction; exists s2; split; try reflexivity; tauto.
Qed.

Lemma stopDrawing_active_witness :
  isDrawing midStroke = true /\
  exists s1,
    stopDrawing midStroke = Ret tt s1 /\
    handler defaultSettings (fun _ => 0) 0 PointerUp = stopDrawing /\
    handler defaultSettings (fun _ => 0) 0 PointerLeave = stopDrawing /\
    isDrawing s1 = false /\ lastPoint s1 = None /\
    strokeEnds s1 = S (strokeEnds midStroke) /\
    distRemainder s1 = distRemainder midStroke /\
    canvas s1 = canvas midStroke /\ stamps s1 = stamps midStroke /\
    exists s2, dispatch defaultSettings (fun _ => 0) 0
                        (PointerDown (PointerEvent.mk 7 7 0 0)) s1 = Some s2 /\
               distRemainder s2 = Fin 0.
Proof.
  split; [reflexivity |].
  apply (stopDrawing_active defaultSettings (fun _ => 0) 0
           (PointerEvent.mk 7 7 0 0) midStroke).
  reflexivity.
Defined.



(** ** Loading an image *)

(** C9, as stated, fails: a payload that does not decode raises nothing,
    the call and the settling of the load both return normally. *)
Lemma loadImage_failure_raises_nothing :
  (loadImage "%" ;; imageSettled (fun _ => None)) (mounted 0 0 200 50)
  = Ret tt (mounted 0 0 200 50) /\
  forall ex s', (loadImage "%" ;; imageSettled (fun _ => None)) (mounted 0 0 200 50)
                <> Throw ex s'.
Proof.
  assert (H : (loadImage "%" ;; imageSettled (fun _ => None)) (mounted 0 0 200 50)
              = Ret tt (mounted 0 0 200 50)) by reflexivity.
  split; [exact H |]. intros ex s'. rewrite H. discriminate.
Qed.

(** C9, amended: when the payload does not decode, the load settles
    without running any listener: nothing is signalled to the host and the
    state, the canvas with it, is what it was before [loadImage]. *)
Theorem loadImage_failure_leaves_state (decode : string -> option Image)
        (base64 : string) (s : State) :
  decode ("data:image/png;base64," ++ base64)%string = None ->
  pendingImages s = [] ->
  (loadImage base64 ;; imageSettled decode) s = Ret tt s.
Proof.
  intros D P. destruct s as [cv dr lp rem se rd pend stp]. cbn in P. subst pend.
  unfold loadImage, imageSettled, bind, getContext, get, modify, ret.
  destruct cv as [cv|]; cbn in *; [rewrite D |]; reflexivity.
Qed.

Lemma loadImage_failure_leaves_state_witness :
  (loadImage "%" ;; imageSettled (fun _ => None)) (mounted 0 0 200 50)
  = Ret tt (mounted 0 0 200 50).
Proof.
  apply (loadImage_failure_leaves_state (fun _ => None) "%" (mounted 0 0 200 50));
    reflexivity.
Defined.

(** ** One stamp *)

Lemma orElse_fin (p : option R) :
  Num.orElse (option_map Fin p) (Fin (1 / 2)) = Fin (effectivePressure p).
Proof.
  destruct p as [v|]; cbn; [| reflexivity].
  destruct (Num.eqb v 0); reflexivity.
Qed.

Lemma div2_fin (z : R) : Num.div (Fin z) (Fin 2) = Fin (z / 2).
Proof. cbn. rewrite eqb_false by lra. reflexivity. Qed.

Lemma addColorStop_ok (g : Canvas2D.Gradient) (o : R) (c : Canvas2D.RGBA) :
  0 <= o <= 1 ->
  Canvas2D.addColorStop g o c =
    inr (Canvas2D.mkGradient (Canvas2D.gx0 g) (Canvas2D.gy0 g) (Canvas2D.gr0 g)
           (Canvas2D.gx1 g) (Canvas2D.gy1 g) (Canvas2D.gr1 g)
           (Canvas2D.insertStop o c (Canvas2D.stops g))).
Proof.
  intros H. unfold Canvas2D.addColorStop.
  rewrite (ltb_false o 0), (ltb_false 1 o) by lra. reflexivity.
Qed.

Lemma setGlobalAlpha_frame (a : R) (c : Canvas2D.Context2D) :
  Canvas2D.fillStyle (Canvas2D.setGlobalAlpha a c) = Canvas2D.fillStyle c /\
  Canvas2D.path (Canvas2D.setGlobalAlpha a c) = Canvas2D.path c /\
  Canvas2D.width (Canvas2D.setGlobalAlpha a c) = Canvas2D.width c /\
  Canvas2D.height (Canvas2D.setGlobalAlpha a c) = Canvas2D.height c /\
  Canvas2D.bitmap (Canvas2D.setGlobalAlpha a c) = Canvas2D.bitmap c.
Proof.
  unfold Canvas2D.setGlobalAlpha.
  destruct (Num.leb 0 a && Num.leb a 1); cbn; repeat split; reflexivity.
Qed.

(** A stamp of a brush other than the pixel tool, on a mounted canvas, at
    a finite point and with a finite size that is not negative: every
    context call succeeds and the mark is one filled circle. *)
Lemma drawStamp_standard (st : DrawingSettings) (rnd : nat -> R) (s : State)
      (cv : CanvasElement) (a b : R) (pr tl : option num) (z : R) :
  canvas s = Some cv ->
  tool st <> PIXEL ->
  stampSize st (mkPoint (Fin a) (Fin b) pr tl) = Fin z ->
  0 <= z ->
  (hardness st < 1 -> 0 <= hardness st) ->
  let c0 := context cv in
  let cx := a + jitterR st (rnd (randomDraws s)) z in
  let cy := b + jitterR st (rnd (S (randomDraws s))) z in
  let col := if ToolType_eqb (tool st) ERASER then background else color st in
  exists s' c',
    drawStamp st rnd (mkPoint (Fin a) (Fin b) pr tl) s = Ret tt s' /\
    canvas s' = Some (mkCanvas (rectLeft cv) (rectTop cv) c') /\
    Canvas2D.path c' = [Canvas2D.mkCircle cx cy (z / 2)] /\
    Canvas2D.fillStyle c' =
      (if Num.ltb (hardness st) 1
       then Canvas2D.Radial
              (Canvas2D.mkGradient cx cy 0 cx cy (z / 2)
                 [(hardness st, Canvas2D.opaque col); (1, Canvas2D.faded col)])
       else Canvas2D.Solid (Canvas2D.opaque col)) /\
    Canvas2D.globalAlpha c' =
      Canvas2D.globalAlpha (Canvas2D.setGlobalAlpha (opacity st) c0) /\
    Canvas2D.width c' = Canvas2D.width c0 /\
    Canvas2D.height c' = Canvas2D.height c0 /\
    forall px py,
      Canvas2D.bitmap c' px py =
        if Canvas2D.inCircle (Canvas2D.mkCircle cx cy (z / 2)) px py
           && Canvas2D.inBitmap c0 px py
        then Canvas2D.over (Canvas2D.paintAt (Canvas2D.fillStyle c') px py)
                           (Canvas2D.globalAlpha c') (Canvas2D.bitmap c0 px py)
        else Canvas2D.bitmap c0 px py.
Proof.
  intros E T Hz Z0 Hh c0 cx cy col.
  destruct s as [cv0 dr lp rem se rd pend stp]. cbn in E. subst cv0.
  destruct cv as [l t c]. cbn in c0, cx, cy.
  unfold drawStamp. cbv zeta. rewrite Hz, div2_fin.
  assert (TP : ToolType_eqb (tool st) PIXEL = false)
    by (destruct (tool st); try reflexivity; congruence).
  rewrite TP.
  assert (G : forall u v,
             Canvas2D.createRadialGradient (Fin u) (Fin v) (Fin 0) (Fin u) (Fin v) (Fin (z / 2))
             = inr (Canvas2D.mkGradient u v 0 u v (z / 2) [])).
  { intros u v. unfold Canvas2D.createRadialGradient.
    rewrite (ltb_false 0 0), (ltb_false (z / 2) 0) by lra. reflexivity. }
  assert (A : forall u v k,
             Canvas2D.arc (Fin u) (Fin v) (Fin (z / 2)) k
             = inr (Canvas2D.mkContext (Canvas2D.fillStyle k) (Canvas2D.globalAlpha k)
                      (Canvas2D.path k ++ [Canvas2D.mkCircle u v (z / 2)])
                      (Canvas2D.width k) (Canvas2D.height k) (Canvas2D.bitmap k))).
  { intros u v k. unfold Canvas2D.arc. rewrite (ltb_false (z / 2) 0) by lra. reflexivity. }
  unfold cx, cy, col, jitterR.
  destruct (Num.ltb (hardness st) 1) eqn:H1.
  - apply ltb_spec in H1. specialize (Hh H1).
    assert (L3 : Num.ltb 1 (hardness st) = false) by (apply ltb_false; lra).
    destruct (Num.ltb 0 (jitter st)) eqn:J;
      destruct (ToolType_eqb (tool st) ERASER) eqn:TE;
      unfold bind, modify, getContext, get, ret, mathRandom, onCtx, onCtxTry, tryM,
        withContext, jitterOffset;
      repeat (cbn -[Canvas2D.createRadialGradient Canvas2D.arc Canvas2D.addColorStop
                    Canvas2D.setGlobalAlpha Canvas2D.paintAt Canvas2D.inBitmap
                    Canvas2D.inCircle Canvas2D.over];
              rewrite ?G, ?A, ?L3, ?addColorStop_ok by lra);
      do 2 eexists; (split; [reflexivity |]); (split; [reflexivity |]);
      destruct (setGlobalAlpha_frame (opacity st) c) as (F1 & F2 & F3 & F4 & F5);
      unfold Canvas2D.inBitmap;
      cbn -[Canvas2D.setGlobalAlpha Canvas2D.paintAt
            Canvas2D.inCircle Canvas2D.over];
      rewrite ?F3, ?F4, ?F5;
      repeat (split; [reflexivity |]);
      intros px py; rewrite orb_false_r; reflexivity.
  - destruct (Num.ltb 0 (jitter st)) eqn:J;
      destruct (ToolType_eqb (tool st) ERASER) eqn:TE;
      unfold bind, modify, getContext, get, ret, mathRandom, onCtx, onCtxTry, tryM,
        withContext, jitterOffset;
      repeat (cbn -[Canvas2D.createRadialGradient Canvas2D.arc Canvas2D.addColorStop
                    Canvas2D.setGlobalAlpha Canvas2D.paintAt Canvas2D.inBitmap
                    Canvas2D.inCircle Canvas2D.over];
              rewrite ?G, ?A);
      do 2 eexists; (split; [reflexivity |]); (split; [reflexivity |]);
      destruct (setGlobalAlpha_frame (opacity st) c) as (F1 & F2 & F3 & F4 & F5);
      unfold Canvas2D.inBitmap;
      cbn -[Canvas2D.setGlobalAlpha Canvas2D.paintAt
            Canvas2D.inCircle Canvas2D.over];
      rewrite ?F3, ?F4, ?F5;
      repeat (split; [reflexivity |]);
      intros px py; rewrite orb_false_r; reflexivity.
Qed.

Lemma setGlobalAlpha_one (c : Canvas2D.Context2D) :
  Canvas2D.setGlobalAlpha 1 c =
  Canvas2D.mkContext (Canvas2D.fillStyle c) 1 (Canvas2D.path c)
                     (Canvas2D.width c) (Canvas2D.height c) (Canvas2D.bitmap c).
Proof.
  unfold Canvas2D.setGlobalAlpha.
  rewrite (leb_true 0 1), (leb_true 1 1) by lra. reflexivity.
Qed.

Lemma over_opaque (col : Color) (d : Canvas2D.Pixel) :
  Canvas2D.over (Canvas2D.opaque col) 1 d = Canvas2D.mkPixel (cr col) (cg col) (cb col) 1.
Proof. unfold Canvas2D.over; cbn. f_equal; ring. Qed.

(** A stamp of the pixel tool at a finite point: one opaque square. *)
Lemma drawStamp_pixel (st : DrawingSettings) (rnd : nat -> R) (s : State)
      (cv : CanvasElement) (a b : R) (pr tl : option num) :
  canvas s = Some cv ->
  tool st = PIXEL ->
  let c0 := context cv in
  let ps := pixelSize st in
  let ox := Num.floorR (a / ps) * ps in
  let oy := Num.floorR (b / ps) * ps in
  exists s' c',
    drawStamp st rnd (mkPoint (Fin a) (Fin b) pr tl) s = Ret tt s' /\
    canvas s' = Some (mkCanvas (rectLeft cv) (rectTop cv) c') /\
    randomDraws s' = randomDraws s /\
    Canvas2D.fillStyle c' = Canvas2D.Solid (Canvas2D.opaque (color st)) /\
    Canvas2D.globalAlpha c' = 1 /\
    Canvas2D.path c' = Canvas2D.path c0 /\
    Canvas2D.width c' = Canvas2D.width c0 /\
    Canvas2D.height c' = Canvas2D.height c0 /\
    forall px py,
      Canvas2D.bitmap c' px py =
        if Canvas2D.inRect ox oy ps ps px py && Canvas2D.inBitmap c0 px py
        then Canvas2D.mkPixel (cr (color st)) (cg (color st)) (cb (color st)) 1
        else Canvas2D.bitmap c0 px py.
Proof.
  intros E T c0 ps ox oy.
  destruct s as [cv0 dr lp rem se rd pend stp]. cbn in E. subst cv0.
  destruct cv as [l t c]. cbn in c0.
  pose proof (pixelSize_pos st) as P. fold ps in P.
  unfold drawStamp. cbv zeta. rewrite T. cbn [x y]. fold ps.
  assert (D : forall u, Num.div (Fin u) (Fin ps) = Fin (u / ps)).
  { intros u. cbn. rewrite eqb_false by lra. reflexivity. }
  rewrite !D.
  unfold bind, modify, getContext, get, ret, onCtx, withContext.
  cbn -[Canvas2D.setGlobalAlpha Canvas2D.fillRect].
  rewrite setGlobalAlpha_one. unfold Canvas2D.fillRect.
  rewrite (eqb_false ps 0) by lra.
  do 2 eexists. split; [reflexivity |]. split; [reflexivity |].
  cbn -[Canvas2D.inRect Canvas2D.over Canvas2D.inBitmap].
  repeat (split; [reflexivity |]).
  intros px py. unfold Canvas2D.inBitmap at 1. cbn -[Canvas2D.inRect Canvas2D.over].
  fold (Canvas2D.inBitmap c0 px py).
  rewrite over_opaque. reflexivity.
Qed.

Lemma effectivePressure_pos (p : option R) : pressureOK p -> 0 < effectivePressure p.
Proof.
  destruct p as [v|]; cbn; [| lra].
  intros H. unfold Num.eqb. destruct (Req_dec_T v 0); lra.
Qed.

Lemma stampSize_fin (st : DrawingSettings) (a b : num) (p : option R) (tl : option num) :
  stampSize st (mkPoint a b (option_map Fin p) tl)
  = Fin (size st * (if isStylus st then effectivePressure p else 1)).
Proof.
  unfold stampSize, stampPressure. cbn [pressure].
  destruct (isStylus st); [rewrite orElse_fin |]; reflexivity.
Qed.

Lemma stampRadius_nonneg (st : DrawingSettings) (p : option R) :
  0 <= size st -> pressureOK p ->
  0 <= size st * (if isStylus st then effectivePressure p else 1).
Proof.
  intros S P. pose proof (effectivePressure_pos p P).
  destruct (isStylus st); nra.
Qed.




(** The colour the two-stop gradient of a soft stamp gives at distance [d]
    from its centre. *)
Lemma soft_paint (cx cy r h : R) (col : Color) (px py : R) :
  0 < r -> 0 <= h < 1 ->
  let d := Canvas2D.euclid cx cy px py in
  let src := Canvas2D.paintAt
               (Canvas2D.Radial
                  (Canvas2D.mkGradient cx cy 0 cx cy r
                     [(h, Canvas2D.opaque col); (1, Canvas2D.faded col)])) px py in
  (d <= h * r -> src = Canvas2D.opaque col) /\
  (h * r <= d <= r ->
   src = Canvas2D.mkRGBA (cr col) (cg col) (cb col) ((r - d) / (r - h * r))).
Proof.
  intros R0 H d src.
  assert (W : (d - 0) / (r - 0) = d / r) by (field; lra).
  assert (E : src = Canvas2D.colorAt [(h, Canvas2D.opaque col); (1, Canvas2D.faded col)]
                                     (d / r)).
  { unfold src, Canvas2D.paintAt. cbn [Canvas2D.gx0 Canvas2D.gx1 Canvas2D.gy0 Canvas2D.gy1
                                        Canvas2D.gr0 Canvas2D.gr1 Canvas2D.stops].
    rewrite !eqb_true by reflexivity. rewrite (eqb_false 0 r) by lra.
    cbn [andb negb]. fold d. rewrite W. reflexivity. }
  assert (Q : forall u, d / r <= u <-> d <= u * r).
  { intros u. split; intros K.
    - replace d with (d / r * r) by (field; lra). nra.
    - replace u with (u * r / r) by (field; lra).
      unfold Rdiv. apply Rmult_le_compat_r; [| exact K].
      left; apply Rinv_0_lt_compat; lra. }
  rewrite E. cbn [Canvas2D.colorAt]. split.
  - intros K. rewrite leb_true by (apply Q; exact K). reflexivity.
  - intros [K1 K2].
    destruct (Rle_dec d (h * r)) as [L | L].
    + rewrite leb_true by (apply Q; exact L).
      assert (d = h * r) by lra. subst d.
      unfold Canvas2D.opaque. f_equal. rewrite H0. field. nra.
    + rewrite leb_false.
      2:{ apply Rnot_le_lt. intros C. apply L. apply Q. exact C. }
      destruct (Rlt_dec (d / r) 1) as [L1 | L1].
      * rewrite ltb_true by exact L1.
        unfold Canvas2D.mix, Canvas2D.opaque, Canvas2D.faded. cbn.
        f_equal; try ring. field. split; nra.
      * rewrite ltb_false by lra.
        assert (d = r).
        { apply Rle_antisym; [exact K2 |].
          apply Rnot_lt_le in L1. apply Rnot_lt_le. intros C. 
          assert (d / r <= 1 * r / r) by
            (unfold Rdiv; apply Rmult_le_compat_r;
             [left; apply Rinv_0_lt_compat; lra | lra]).
          replace (1 * r / r) with 1 in H0 by (field; lra).
          assert (d / r = 1) by lra.
          assert (d = 1 * r) by (replace d with (d / r * r) by (field; lra); rewrite H1; ring).
          lra. }
        unfold Canvas2D.faded. f_equal. rewrite H0. field. nra.
Qed.

(** C6: a stamp of a standard brush of effective radius [r] paints, with
    hardness below 1, the brush colour solid from the centre out to
    [hardness * r] and from there with an alpha that falls linearly to
    zero at [r]; with hardness 1 it paints the solid colour over the whole
    disc; nothing outside radius [r] is touched. *)
Theorem stamp_hardness_falloff (st : DrawingSettings) (rnd : nat -> R) (s : State)
        (cv : CanvasElement) (a b : R) (p : option R) (tl : option num) :
  canvas s = Some cv ->
  tool st <> PIXEL ->
  0 < size st ->
  pressureOK p ->
  0 <= hardness st <= 1 ->
  let r := stampRadius st p in
  let h := hardness st in
  let col := if ToolType_eqb (tool st) ERASER then background else color st in
  exists s' c' cx cy,
    drawStamp st rnd (mkPoint (Fin a) (Fin b) (option_map Fin p) tl) s = Ret tt s' /\
    canvas s' = Some (mkCanvas (rectLeft cv) (rectTop cv) c') /\
    0 < r /\
    forall px py,
      let d := Canvas2D.euclid cx cy px py in
      let src := Canvas2D.paintAt (Canvas2D.fillStyle c') px py in
      (h < 1 -> d <= h * r -> src = Canvas2D.opaque col) /\
      (h < 1 -> h * r <= d <= r ->
       src = Canvas2D.mkRGBA (cr col) (cg col) (cb col) ((r - d) / (r - h * r))) /\
      (h = 1 -> src = Canvas2D.opaque col) /\
      (d <= r -> Canvas2D.inBitmap (context cv) px py = true ->
       Canvas2D.bitmap c' px py
       = Canvas2D.over src (Canvas2D.globalAlpha c') (Canvas2D.bitmap (context cv) px py)) /\
      (r < d -> Canvas2D.bitmap c' px py = Canvas2D.bitmap (context cv) px py).
Proof.
  intros E T S P H r h col. subst h.
  pose proof (effectivePressure_pos p P) as EP.
  assert (R0 : 0 < r) by (unfold r, stampRadius; destruct (isStylus st); nra).
  destruct (drawStamp_standard st rnd s cv a b (option_map Fin p) tl
              (size st * (if isStylus st then effectivePressure p else 1)))
    as (s' & c' & D & C & Pa & F & _ & _ & _ & B); try assumption.
  { apply stampSize_fin. }
  { apply stampRadius_nonneg; [lra | assumption]. }
  { intros _. apply H. }
  fold (stampRadius st p) in Pa, F, B. fold r in Pa, F, B. fold col in F.
  exists s', c'. do 2 eexists.
  split; [exact D |]. split; [exact C |]. split; [exact R0 |].
  intros px py d src.
  split; [| split; [| split; [| split]]].
  - intros H1 K. unfold src. rewrite F, ltb_true by exact H1.
    apply soft_paint; [exact R0 | lra | exact K].
  - intros H1 K. unfold src. rewrite F, ltb_true by exact H1.
    apply soft_paint; [exact R0 | lra | exact K].
  - intros H1. unfold src. rewrite F, ltb_false by lra. reflexivity.
  - intros K I. rewrite B. unfold Canvas2D.inCircle. cbn [Canvas2D.ccx Canvas2D.ccy Canvas2D.crad].
    rewrite leb_true by exact K. rewrite I. reflexivity.
  - intros K. rewrite B. unfold Canvas2D.inCircle. cbn [Canvas2D.ccx Canvas2D.ccy Canvas2D.crad].
    rewrite leb_false by exact K. reflexivity.
Qed.

Lemma stamp_hardness_falloff_witness :
  exists s' c' cx cy,
    drawStamp softSettings (fun _ => 0)
              (mkPoint (Fin 30) (Fin 20) (option_map Fin None) None)
              (mounted 0 0 200 50) = Ret tt s' /\
    canvas s' = Some (mkCanvas 0 0 c') /\
    0 < stampRadius softSettings None /\
    forall px py,
      let d := Canvas2D.euclid cx cy px py in
      let src := Canvas2D.paintAt (Canvas2D.fillStyle c') px py in
      (1 / 2 < 1 -> d <= 1 / 2 * stampRadius softSettings None ->
       src = Canvas2D.opaque (rgb 28 25 23)) /\
      (1 / 2 < 1 -> 1 / 2 * stampRadius softSettings None <= d <= stampRadius softSettings None ->
       src = Canvas2D.mkRGBA 28 25 23
               ((stampRadius softSettings None - d)
                / (stampRadius softSettings None - 1 / 2 * stampRadius softSettings None))) /\
      (1 / 2 = 1 -> src = Canvas2D.opaque (rgb 28 25 23)) /\
      (d <= stampRadius softSettings None ->
       Canvas2D.inBitmap (mountedContext 200 50) px py = true ->
       Canvas2D.bitmap c' px py
       = Canvas2D.over src (Canvas2D.globalAlpha c')
                       (Canvas2D.bitmap (mountedContext 200 50) px py)) /\
      (stampRadius softSettings None < d ->
       Canvas2D.bitmap c' px py = Canvas2D.bitmap (mountedContext 200 50) px py).
Proof.
  apply (stamp_hardness_falloff softSettings (fun _ => 0) (mounted 0 0 200 50)
           (mkCanvas 0 0 (mountedContext 200 50)) 30 20 None None).
  - reflexivity.
  - discriminate.
  - cbn; lra.
  - exact I.
  - cbn; lra.
Defined.

(** C7: in pixel mode a stamp at [(a, b)] fills, fully opaque and in the
    brush colour, exactly the cell of side [pixelSize = max(1, floor(size / 2))]
    whose origin is [(floor(a / pixelSize) * pixelSize, floor(b / pixelSize) * pixelSize)];
    pressure, hardness and jitter play no part (no random draw is made);
    and a second stamp at the same point leaves the context, its bitmap
    included, as the first left it. *)
Theorem pixel_stamp_idempotent (st : DrawingSettings) (rnd : nat -> R) (s : State)
        (cv : CanvasElement) (a b : R) (pr tl : option num) :
  canvas s = Some cv ->
  tool st = PIXEL ->
  let ps := Rmax 1 (Num.floorR (size st / 2)) in
  let ox := Num.floorR (a / ps) * ps in
  let oy := Num.floorR (b / ps) * ps in
  let inCell := fun px py => Num.leb ox px && Num.ltb px (ox + ps)
                             && Num.leb oy py && Num.ltb py (oy + ps) in
  let pt := mkPoint (Fin a) (Fin b) pr tl in
  exists s1 c1 s2 c2,
    drawStamp st rnd pt s = Ret tt s1 /\
    canvas s1 = Some (mkCanvas (rectLeft cv) (rectTop cv) c1) /\
    randomDraws s1 = randomDraws s /\
    (forall px py,
        Canvas2D.bitmap c1 px py =
          if inCell px py && Canvas2D.inBitmap (context cv) px py
          then Canvas2D.mkPixel (cr (color st)) (cg (color st)) (cb (color st)) 1
          else Canvas2D.bitmap (context cv) px py) /\
    drawStamp st rnd pt s1 = Ret tt s2 /\
    canvas s2 = Some (mkCanvas (rectLeft cv) (rectTop cv) c2) /\
    Canvas2D.fillStyle c2 = Canvas2D.fillStyle c1 /\
    Canvas2D.globalAlpha c2 = Canvas2D.globalAlpha c1 /\
    Canvas2D.path c2 = Canvas2D.path c1 /\
    Canvas2D.width c2 = Canvas2D.width c1 /\
    Canvas2D.height c2 = Canvas2D.height c1 /\
    (forall px py, Canvas2D.bitmap c2 px py = Canvas2D.bitmap c1 px py).
Proof.
  intros E T ps ox oy inCell pt.
  destruct (drawStamp_pixel st rnd s cv a b pr tl E T)
    as (s1 & c1 & D1 & C1 & R1 & F1 & G1 & P1 & W1 & H1 & B1).
  destruct (drawStamp_pixel st rnd s1 _ a b pr tl C1 T)
    as (s2 & c2 & D2 & C2 & R2 & F2 & G2 & P2 & W2 & H2 & B2).
  cbn [context rectLeft rectTop] in *.
  fold (pixelSize st) in ps.
  assert (IR : forall px py, Canvas2D.inRect ox oy ps ps px py = inCell px py).
  { intros px py. unfold Canvas2D.inRect, inCell.
    pose proof (pixelSize_pos st) as Q. fold ps in Q.
    rewrite !Rmin_left, !Rmax_right by lra. reflexivity. }
  exists s1, c1, s2, c2.
  repeat (split; [first [assumption | congruence] |]).
  split.
  { intros px py. rewrite B1. fold ps ox oy. rewrite IR. reflexivity. }
  repeat (split; [first [assumption | congruence] |]).
  intros px py. rewrite B2, B1.
  unfold Canvas2D.inBitmap. rewrite W1, H1.
  destruct (Canvas2D.inRect _ _ _ _ px py && _); reflexivity.
Qed.

Lemma pixel_stamp_idempotent_witness :
  exists s1 c1 s2 c2,
    drawStamp pixelSettings (fun _ => 0) (mkPoint (Fin 12) (Fin 7) None None)
              (mounted 0 0 200 50) = Ret tt s1 /\
    canvas s1 = Some (mkCanvas 0 0 c1) /\
    randomDraws s1 = 0%nat /\
    (forall px py,
        Canvas2D.bitmap c1 px py =
          if (let ps := Rmax 1 (Num.floorR (10 / 2)) in
              Num.leb (Num.floorR (12 / ps) * ps) px
              && Num.ltb px (Num.floorR (12 / ps) * ps + ps)
              && Num.leb (Num.floorR (7 / ps) * ps) py
              && Num.ltb py (Num.floorR (7 / ps) * ps + ps))
             && Canvas2D.inBitmap (mountedContext 200 50) px py
          then Canvas2D.mkPixel 28 25 23 1
          else Canvas2D.bitmap (mountedContext 200 50) px py) /\
    drawStamp pixelSettings (fun _ => 0) (mkPoint (Fin 12) (Fin 7) None None) s1
    = Ret tt s2 /\
    canvas s2 = Some (mkCanvas 0 0 c2) /\
    Canvas2D.fillStyle c2 = Canvas2D.fillStyle c1 /\
    Canvas2D.globalAlpha c2 = Canvas2D.globalAlpha c1 /\
    Canvas2D.path c2 = Canvas2D.path c1 /\
    Canvas2D.width c2 = Canvas2D.width c1 /\
    Canvas2D.height c2 = Canvas2D.height c1 /\
    (forall px py, Canvas2D.bitmap c2 px py = Canvas2D.bitmap c1 px py).
Proof.
  apply (pixel_stamp_idempotent pixelSettings (fun _ => 0) (mounted 0 0 200 50)
           (mkCanvas 0 0 (mountedContext 200 50)) 12 7 None None);
    reflexivity.
Defined.

(** ** Interpolation *)

(** A stamp at a finite point returns, whatever the tool and whether or
    not the canvas is mounted, when the size and the pressure are not
    negative and a hardness below 1 is not negative either. *)
Lemma drawStamp_returns (st : DrawingSettings) (rnd : nat -> R) (s : State)
      (a b : R) (p : option R) (tl : option num) :
  0 <= size st ->
  (hardness st < 1 -> 0 <= hardness st) ->
  pressureOK p ->
  let pt := mkPoint (Fin a) (Fin b) (option_map Fin p) tl in
  exists s',
    drawStamp st rnd pt s = Ret tt s' /\
    sameRefs (withStamps (stamps s ++ [pt]) s) s'.
Proof.
  intros S H P pt.
  assert (K : exists s', drawStamp st rnd pt s = Ret tt s').
  { destruct (canvas s) as [cv|] eqn:E.
    - destruct (ToolType_eqb (tool st) PIXEL) eqn:T.
      + assert (T' : tool st = PIXEL) by (destruct (tool st); try discriminate; reflexivity).
        destruct (drawStamp_pixel st rnd s cv a b (option_map Fin p) tl E T')
          as (s' & c' & D & _).
        exists s'. exact D.
      + assert (T' : tool st <> PIXEL) by (intros C; rewrite C in T; discriminate).
        destruct (drawStamp_standard st rnd s cv a b (option_map Fin p) tl
                    (size st * (if isStylus st then effectivePressure p else 1)))
          as (s' & c' & D & _); try assumption.
        * apply stampSize_fin.
        * apply stampRadius_nonneg; assumption.
        * exists s'. exact D.
    - unfold drawStamp, bind, modify, getContext, get. cbn. rewrite E. cbn.
      eexists. reflexivity. }
  destruct K as (s' & D). exists s'. split; [exact D |].
  pose proof (drawStamp_frame st rnd pt s) as F. rewrite D in F. exact F.
Qed.

Lemma segmentLength_fin (x0 y0 x1 y1 : R) (p0 p1 t0 t1 : option num) :
  segmentLength (mkPoint (Fin x0) (Fin y0) p0 t0) (mkPoint (Fin x1) (Fin y1) p1 t1)
  = Fin (Canvas2D.euclid x0 y0 x1 y1).
Proof.
  unfold segmentLength. cbn.
  pose proof (Rle_0_sqr (x1 + - x0)) as A. pose proof (Rle_0_sqr (y1 + - y0)) as B.
  unfold Rsqr in A, B. rewrite ltb_false by lra. reflexivity.
Qed.

Lemma walks_unique (c step len : R) (n m : nat) :
  0 < step -> walks c step len n -> walks c step len m -> n = m.
Proof.
  intros St [A1 B1] [A2 B2].
  destruct (Nat.lt_trichotomy n m) as [L | [L | L]]; [| exact L |].
  - specialize (A2 n L). lra.
  - specialize (A1 m L). lra.
Qed.

Lemma walks_bounded (c step len : R) (N : nat) :
  0 < step -> len - c < INR N * step -> exists n, (n <= N)%nat /\ walks c step len n.
Proof.
  intros St. revert c. induction N as [| N IH]; intros c B.
  - exists 0%nat. split; [lia |]. split; [intros k K; lia |]. cbn in *. lra.
  - destruct (Rle_dec c len) as [L | L].
    + destruct (IH (c + step)) as (n & Ln & A & Bn).
      { rewrite S_INR in B. lra. }
      exists (S n). split; [lia |]. split.
      * intros [| k] K; [cbn; lra |].
        rewrite S_INR. specialize (A k ltac:(lia)). lra.
      * rewrite S_INR. lra.
    + exists 0%nat. split; [lia |]. split; [intros k K; lia |]. cbn. lra.
Qed.

Lemma walks_exists (c step len : R) :
  0 < step -> exists n, walks c step len n.
Proof.
  intros St.
  destruct (INR_unbounded ((len - c) / step)) as [N HN].
  destruct (walks_bounded c step len N St) as (n & _ & W).
  - apply (Rmult_lt_compat_r step) in HN; [| exact St].
    replace ((len - c) / step * step) with (len - c) in HN by (field; lra). exact HN.
  - exists n. exact W.
Qed.


Lemma lerp_nonneg (a b u : R) : 0 <= a -> 0 <= b -> 0 <= u <= 1 -> 0 <= lerp a b u.
Proof. intros A B U. unfold lerp. nra. Qed.

Lemma ratio_unit (c len : R) : 0 <= c <= len -> 0 < len -> 0 <= c / len <= 1.
Proof.
  intros C L. split.
  - apply Rmult_le_pos; [lra | left; apply Rinv_0_lt_compat; exact L].
  - replace 1 with (len / len) by (field; lra).
    unfold Rdiv. apply Rmult_le_compat_r; [left; apply Rinv_0_lt_compat; exact L | lra].
Qed.

Section Segment.

Variable st : DrawingSettings.
Variable rnd : nat -> R.
Variables x0 y0 x1 y1 : R.
Variables p0 p1 : option R.
Variables t0 t1 : option num.

Let start : Point := mkPoint (Fin x0) (Fin y0) (option_map Fin p0) t0.
Let end_ : Point := mkPoint (Fin x1) (Fin y1) (option_map Fin p1) t1.
Let len : R := Canvas2D.euclid x0 y0 x1 y1.
Let step : R := stepSize st.

Hypothesis size_nonneg : 0 <= size st.
Hypothesis hardness_nonneg : hardness st < 1 -> 0 <= hardness st.
Hypothesis pressure0 : pressureOK p0.
Hypothesis pressure1 : pressureOK p1.
Hypothesis len_pos : 0 < len.

(** The loop on a segment of positive length: with fuel for its [n + 1]
    tests it stamps at [c], [c + step], ..., [c + (n - 1) * step] and
    leaves with [c + n * step]. *)
Lemma interpolateLoop_walks (n : nat) :
  forall (c : R) (s : State) (fuel : nat),
    0 <= c -> walks c step len n -> (n < fuel)%nat ->
    exists s',
      interpolateLoop st rnd fuel start end_
                      (Num.sub (x end_) (x start)) (Num.sub (y end_) (y start))
                      (Fin len) step (Fin c) s
      = Ret (Fin (c + INR n * step)) s' /\
      sameRefs (withStamps
                  (stamps s ++ map (fun k => interpolatedStamp x0 y0 x1 y1 p0 p1 len
                                               (c + INR k * step)) (seq 0 n)) s) s'.
Proof.
  pose proof (stepSize_pos st) as SP. fold step in SP.
  induction n as [| n IH]; intros c s fuel C [A B] F;
    (destruct fuel as [| fuel]; [lia |]).
  - cbn in B. cbn [interpolateLoop Num.le].
    rewrite leb_false by lra.
    exists s. split.
    + unfold ret. do 2 f_equal. cbn. ring.
    + cbn [seq map]. rewrite app_nil_r. destruct s; apply sameRefs_refl.
  - assert (CL : c <= len) by (specialize (A 0%nat ltac:(lia)); cbn in A; lra).
    cbn [interpolateLoop Num.le]. rewrite leb_true by exact CL.
    assert (D : Num.div (Fin c) (Fin len) = Fin (c / len))
      by (cbn; rewrite eqb_false by lra; reflexivity).
    rewrite D. unfold start, end_. cbn [x y pressure]. rewrite !orElse_fin.
    cbn [Num.sub Num.add Num.mul Num.neg].
    pose proof (ratio_unit c len ltac:(lra) len_pos) as U.
    pose proof (effectivePressure_pos p0 pressure0) as E0.
    pose proof (effectivePressure_pos p1 pressure1) as E1.
    match goal with
    | |- context [drawStamp st rnd (mkPoint (Fin ?a) (Fin ?b) (Some (Fin ?v)) None)] =>
        destruct (drawStamp_returns st rnd s a b (Some v) None size_nonneg hardness_nonneg)
          as (s1 & D1 & R1)
    end.
    { cbn. apply (lerp_nonneg _ _ (c / len)); lra. }
    cbn [option_map] in D1, R1.
    unfold bind at 1. rewrite D1.
    destruct (IH (c + step) s1 fuel) as (s2 & D2 & R2).
    + lra.
    + split.
      * intros k K. specialize (A (S k) ltac:(lia)). rewrite S_INR in A. lra.
      * rewrite S_INR in B. lra.
    + lia.
    + unfold start, end_ in D2. cbn [x y pressure Num.sub Num.add Num.neg] in D2.
      rewrite D2. exists s2. split.
      * do 2 f_equal. rewrite S_INR. ring.
      * eapply sameRefs_trans; [| exact R2].
        assert (Q : stamps s ++ map (fun k => interpolatedStamp x0 y0 x1 y1 p0 p1 len
                                                (c + INR k * step)) (seq 0 (S n))
                    = stamps s1 ++ map (fun k => interpolatedStamp x0 y0 x1 y1 p0 p1 len
                                                   (c + step + INR k * step)) (seq 0 n)).
        { destruct R1 as (_ & _ & _ & _ & _ & R1 & _). rewrite R1.
          cbn [stamps withStamps seq map]. rewrite <- app_assoc. cbn [app].
          f_equal. f_equal.
          - unfold interpolatedStamp, lerp.
            replace (c + INR 0 * step) with c by (cbn; ring). reflexivity.
          - rewrite <- seq_shift, map_map. apply map_ext. intros k.
            f_equal. rewrite S_INR. ring. }
        rewrite Q.
        unfold sameRefs in *. cbn in *.
        decompose [and] R1. repeat split; congruence.
Qed.

End Segment.

Lemma euclid_nonneg (x0 y0 x1 y1 : R) : 0 <= Canvas2D.euclid x0 y0 x1 y1.
Proof. unfold Canvas2D.euclid. apply sqrt_pos. Qed.

(** With a positive carry a segment of length zero is skipped: the loop
    is not entered, nothing is stamped, the remainder stays. *)
Lemma interpolate_skips (st : DrawingSettings) (rnd : nat -> R)
      (start end_ : Point) (c : R) (s : State) (fuel : nat) :
  segmentLength start end_ = Fin 0 ->
  distRemainder s = Fin c -> 0 < c -> (0 < fuel)%nat ->
  interpolate st rnd fuel start end_ s = Ret tt (withDistRemainder (Fin (c - 0)) s).
Proof.
  intros Z D C F. destruct fuel as [| fuel]; [lia |].
  unfold interpolate. cbv zeta. rewrite Z.
  unfold bind at 1. unfold get at 1. rewrite D.
  cbn [interpolateLoop Num.le]. rewrite leb_false by lra.
  reflexivity.
Qed.

(** [interpolate] between finite points, on a segment of positive length
    or from a positive carry. *)
Lemma interpolate_segment (st : DrawingSettings) (rnd : nat -> R)
      (x0 y0 x1 y1 : R) (p0 p1 : option R) (t0 t1 : option num) (c : R) (s : State) :
  let start := mkPoint (Fin x0) (Fin y0) (option_map Fin p0) t0 in
  let end_ := mkPoint (Fin x1) (Fin y1) (option_map Fin p1) t1 in
  let len := Canvas2D.euclid x0 y0 x1 y1 in
  let step := stepSize st in
  0 <= size st ->
  (hardness st < 1 -> 0 <= hardness st) ->
  pressureOK p0 -> pressureOK p1 ->
  distRemainder s = Fin c -> 0 <= c ->
  0 < len \/ 0 < c ->
  exists n,
    walks c step len n /\
    forall fuel, (n < fuel)%nat ->
      exists s',
        interpolate st rnd fuel start end_ s = Ret tt s' /\
        stamps s' = stamps s ++ map (fun k => interpolatedStamp x0 y0 x1 y1 p0 p1 len
                                                (c + INR k * step)) (seq 0 n) /\
        distRemainder s' = Fin (c + INR n * step - len) /\
        isDrawing s' = isDrawing s /\ lastPoint s' = lastPoint s /\
        strokeEnds s' = strokeEnds s.
Proof.
  intros start end_ len step S H P0 P1 D C LC.
  pose proof (stepSize_pos st) as SP.
  subst start end_ len step.
  destruct (Rlt_dec 0 (Canvas2D.euclid x0 y0 x1 y1)) as [L | L].
  - destruct (walks_exists c (stepSize st) (Canvas2D.euclid x0 y0 x1 y1) ltac:(lra))
      as (n & W).
    exists n. split; [exact W |]. intros fuel F.
    destruct (interpolateLoop_walks st rnd x0 y0 x1 y1 p0 p1 t0 t1 S H P0 P1 L n c s fuel C W F)
      as (s1 & D1 & R1).
    unfold interpolate. cbv zeta. rewrite segmentLength_fin.
    unfold bind at 1. unfold get at 1. rewrite D.
    unfold bind. rewrite D1. unfold modify.
    eexists. split; [reflexivity |].
    unfold sameRefs in R1. cbn in R1. cbn.
    decompose [and] R1. repeat split; assumption.
  - pose proof (euclid_nonneg x0 y0 x1 y1) as N.
    assert (Z : Canvas2D.euclid x0 y0 x1 y1 = 0) by lra.
    assert (C0 : 0 < c) by (destruct LC; lra).
    exists 0%nat. split.
    + split; [intros k K; lia | cbn; lra].
    + intros fuel F. eexists. split.
      * apply interpolate_skips; [rewrite segmentLength_fin, Z; reflexivity | exact D | exact C0 | exact F].
      * cbn. rewrite app_nil_r. repeat split. f_equal. lra.
Qed.


Lemma stepSize_default : stepSize defaultSettings = 1.
Proof. unfold stepSize; cbn. unfold Rmax. destruct (Rle_dec (1 / 2) (10 * (1 / 10))); lra. Qed.



Lemma euclid_horizontal (a b h : R) : a <= b -> Canvas2D.euclid a h b h = b - a.
Proof.
  intros L. unfold Canvas2D.euclid.
  replace ((b - a) * (b - a) + (h - h) * (h - h)) with (Rsqr (b - a)) by (unfold Rsqr; ring).
  apply sqrt_Rsqr. lra.
Qed.


(** The stroke of the design document's end-to-end scenario: from (0, 0)
    to (100, 0) at size 10 and spacing 0.2, the move stamps 51 times, at
    x = 0, 2, ..., 100, and leaves a remainder of 2. *)
Example interpolate_hundred_pixels :
  let st := mkSettings (rgb 28 25 23) 10 1 1 (2 / 10) 0 PENCIL false in
  exists s',
    interpolate st (fun _ => 0) 52
                (mkPoint (Fin 0) (Fin 0) None None) (mkPoint (Fin 100) (Fin 0) None None)
                (mounted 0 0 200 50) = Ret tt s' /\
    List.length (stamps s') = 51%nat /\
    (forall k, (k < 51)%nat -> option_map x (nth_error (stamps s') k) = Some (Fin (2 * INR k))) /\
    distRemainder s' = Fin 2.
Proof.
  intros st.
  assert (SS : stepSize st = 2).
  { unfold stepSize; cbn. unfold Rmax. destruct (Rle_dec (1 / 2) (10 * (2 / 10))); lra. }
  assert (E : Canvas2D.euclid 0 0 100 0 = 100) by (rewrite euclid_horizontal; lra).
  destruct (interpolate_segment st (fun _ => 0) 0 0 100 0 None None None None 0
              (mounted 0 0 200 50)) as (n & W & K);
    try (cbn; lra); try reflexivity; try exact I.

  rewrite E, SS in *.
  assert (N : n = 51%nat).
  { apply (walks_unique 0 2 100); [lra | exact W |]. split.
    - intros k Hk. assert (B : INR k <= INR 50) by (apply le_INR; lia).
      rewrite (INR_IZR_INZ 50) in B. cbn in B. lra.
    - replace (INR 51) with 51 by (rewrite INR_IZR_INZ; reflexivity). lra. }
  subst n. destruct (K 52%nat ltac:(lia)) as (s' & D & T & R & _).
  exists s'. split; [exact D |]. split; [| split].
  - rewrite T, length_app, length_map, length_seq. reflexivity.
  - intros k Hk. rewrite T. cbn [stamps mounted app].
    rewrite nth_error_map, nth_error_seq.
    replace (k <? 51)%nat with true by (symmetry; apply Nat.ltb_lt; exact Hk).
    cbn [option_map interpolatedStamp x Nat.add]. do 2 f_equal.
    unfold lerp. field.
  - rewrite R. f_equal. replace (INR 51) with 51 by (rewrite INR_IZR_INZ; reflexivity). lra.
Qed.

(** ** A segment of length zero *)

Lemma euclid_same (a b : R) : Canvas2D.euclid a b a b = 0.
Proof.
  unfold Canvas2D.euclid.
  replace ((a - a) * (a - a) + (b - b) * (b - b)) with 0 by ring. apply sqrt_0.
Qed.

Lemma mul_NaN_r (a : num) : Num.mul a NaN = NaN.
Proof. destruct a; reflexivity. Qed.

Lemma add_NaN_r (a : num) : Num.add a NaN = NaN.
Proof. destruct a; reflexivity. Qed.

(** A move that repeats the last position, a positive carry pending: no
    stamp, the same remainder. *)
Lemma interpolate_zero_length_positive_carry (st : DrawingSettings) (rnd : nat -> R)
      (a b : R) (p0 p1 t0 t1 : option num) (c : R) (s : State) (fuel : nat) :
  distRemainder s = Fin c -> 0 < c -> (0 < fuel)%nat ->
  exists s',
    interpolate st rnd fuel (mkPoint (Fin a) (Fin b) p0 t0) (mkPoint (Fin a) (Fin b) p1 t1) s
    = Ret tt s' /\
    stamps s' = stamps s /\ distRemainder s' = Fin (c - 0) /\ canvas s' = canvas s.
Proof.
  intros D C F. eexists. split.
  - apply interpolate_skips; [rewrite segmentLength_fin, euclid_same; reflexivity | exact D | exact C | exact F].
  - cbn. repeat split.
Qed.

(** With carry zero the loop is entered once: [0 / 0] is evaluated, the
    stamp has [NaN] for its coordinates and pressure, and the remainder
    becomes the step. *)
Lemma interpolate_zero_length_zero_carry (st : DrawingSettings) (rnd : nat -> R)
      (a b : R) (p0 p1 t0 t1 : option num) (s : State) (fuel : nat) :
  distRemainder s = Fin 0 -> (1 < fuel)%nat ->
  Num.div (Fin 0) (segmentLength (mkPoint (Fin a) (Fin b) p0 t0)
                                 (mkPoint (Fin a) (Fin b) p1 t1)) = NaN /\
  match interpolate st rnd fuel (mkPoint (Fin a) (Fin b) p0 t0)
                    (mkPoint (Fin a) (Fin b) p1 t1) s with
  | Ret _ s' =>
      stamps s' = stamps s ++ [nanStamp] /\ distRemainder s' = Fin (0 + stepSize st - 0)
  | Throw _ s' =>
      stamps s' = stamps s ++ [nanStamp] /\ distRemainder s' = Fin 0
  | OutOfFuel => False
  end.
Proof.
  intros D F. destruct fuel as [| [| fuel]]; try lia.
  pose proof (stepSize_pos st) as SP.
  rewrite segmentLength_fin, euclid_same.
  split; [cbn; rewrite eqb_true by reflexivity; reflexivity |].
  unfold interpolate. cbv zeta. rewrite segmentLength_fin, euclid_same.
  unfold bind at 1. unfold get at 1. rewrite D.
  cbn [interpolateLoop Num.le]. rewrite leb_true by lra.
  assert (Z : Num.div (Fin 0) (Fin 0) = NaN)
    by (cbn; rewrite eqb_true by reflexivity; reflexivity).
  rewrite Z, !mul_NaN_r, !add_NaN_r. fold nanStamp.
  pose proof (drawStamp_frame st rnd nanStamp s) as Fr.
  unfold bind.
  destruct (drawStamp st rnd nanStamp s) as [u s1 | ex s1 | ]; [| | contradiction].
  - cbn [Num.add Num.le]. rewrite leb_false by lra.
    unfold ret, modify. cbn.
    unfold sameRefs in Fr. cbn in Fr. decompose [and] Fr. split; [assumption | reflexivity].
  - unfold sameRefs in Fr. cbn in Fr. decompose [and] Fr. split; congruence.
Qed.

Lemma drawStamp_nan_hard (st : DrawingSettings) (rnd : nat -> R) (s : State) (cv : CanvasElement) :
  canvas s = Some cv ->
  tool st <> PIXEL -> ~ hardness st < 1 -> 0 <= size st ->
  exists s' c',
    drawStamp st rnd nanStamp s = Ret tt s' /\
    canvas s' = Some (mkCanvas (rectLeft cv) (rectTop cv) c') /\
    forall px py, Canvas2D.bitmap c' px py = Canvas2D.bitmap (context cv) px py.
Proof.
  intros E T H S.
  destruct s as [cv0 dr lp rem se rd pend stp]. cbn in E. subst cv0.
  destruct cv as [l t c].
  unfold drawStamp, nanStamp. cbv zeta.
  assert (TP : ToolType_eqb (tool st) PIXEL = false)
    by (destruct (tool st); try reflexivity; congruence).
  rewrite TP, (ltb_false (hardness st) 1) by lra.
  assert (A : forall u v w k, Canvas2D.arc (Num.add NaN u) v w k = inr k).
  { intros u v w k. destruct u; reflexivity. }
  destruct (setGlobalAlpha_frame (opacity st) c) as (F1 & F2 & F3 & F4 & F5).
  destruct (Num.ltb 0 (jitter st));
    unfold bind, modify, getContext, get, ret, mathRandom, onCtx, onCtxTry, tryM, withContext;
    cbn -[Canvas2D.arc Canvas2D.setGlobalAlpha Canvas2D.inBitmap Canvas2D.over
          Canvas2D.paintAt Num.add];
    rewrite A;
    do 2 eexists; (split; [reflexivity |]); (split; [reflexivity |]);
    intros px py; cbn -[Canvas2D.setGlobalAlpha Canvas2D.inBitmap Canvas2D.over
                        Canvas2D.paintAt];
    rewrite F5; reflexivity.
Qed.

Lemma drawStamp_nan_soft (st : DrawingSettings) (rnd : nat -> R) (s : State) (cv : CanvasElement) :
  canvas s = Some cv ->
  tool st <> PIXEL -> hardness st < 1 ->
  exists s', drawStamp st rnd nanStamp s = Throw Canvas2D.TypeError s'.
Proof.
  intros E T H.
  destruct s as [cv0 dr lp rem se rd pend stp]. cbn in E. subst cv0.
  destruct cv as [l t c].
  unfold drawStamp, nanStamp. cbv zeta.
  assert (TP : ToolType_eqb (tool st) PIXEL = false)
    by (destruct (tool st); try reflexivity; congruence).
  rewrite TP, (ltb_true (hardness st) 1) by lra.
  assert (G : forall u v w, Canvas2D.createRadialGradient (Num.add NaN u) v (Fin 0)
                                                          (Num.add NaN u) v w
                            = inl Canvas2D.TypeError).
  { intros u v w. destruct u; reflexivity. }
  destruct (Num.ltb 0 (jitter st));
    unfold bind, modify, getContext, get, ret, mathRandom, onCtx, onCtxTry, tryM, withContext;
    cbn -[Canvas2D.createRadialGradient Canvas2D.setGlobalAlpha Num.add];
    rewrite G; eexists; reflexivity.
Qed.

(** C2: the code at a pointerDown followed by a pointerMove that reports
    the same position (distance 0, carry 0): the loop of [interpolate] is
    entered, [0 / 0] is evaluated, [drawStamp] is called once more, on a
    point of [NaN] coordinates, and the remainder goes from 0 to the step. *)
Theorem move_without_motion_stamps_nan :
  let e := PointerEvent.mk 5 5 0 0 in
  let p := mkPoint (Fin (5 - 0)) (Fin (5 - 0)) (Some (Fin (1 / 2))) (Some (Fin 0)) in
  exists s1 s2,
    dispatch defaultSettings (fun _ => 0) 2 (PointerDown e) (mounted 0 0 200 50) = Some s1 /\
    lastPoint s1 = Some p /\ distRemainder s1 = Fin 0 /\
    segmentLength p p = Fin 0 /\
    Num.div (distRemainder s1) (segmentLength p p) = NaN /\
    interpolate defaultSettings (fun _ => 0) 2 p p s1 = Ret tt s2 /\
    dispatch defaultSettings (fun _ => 0) 2 (PointerMove e) s1
    = Some (withLastPoint (Some p) s2) /\
    stamps s2 = [p; nanStamp] /\
    distRemainder s2 = Fin 1.
Proof.
  intros e p.
  set (st := defaultSettings). set (rnd := fun _ : nat => 0).
  set (s0 := mounted 0 0 200 50).
  pose proof stepSize_default as SD. fold st in SD.
  (* pointerDown *)
  assert (D1 : exists s1, startDrawing st rnd e s0 = Ret tt s1 /\
                          sameRefs (mkState (canvas s0) true (Some p) (Fin 0) 0 0 [] [p]) s1).
  { unfold startDrawing, bind at 1, modify at 1. unfold bind at 1.
    assert (G : getCoordinates e (withIsDrawing true s0) = Ret p (withIsDrawing true s0)).
    { unfold getCoordinates, bind, get, ret. cbn. rewrite eqb_true by reflexivity. reflexivity. }
    rewrite G. unfold bind, modify. 
    destruct (drawStamp_returns st rnd
                (withDistRemainder (Fin 0)
                   (withLastPoint (Some p) (withIsDrawing true s0)))
                (5 - 0) (5 - 0) (Some (1 / 2)) (Some (Fin 0)))
      as (s1 & E1 & R1); try (cbn; lra).
    exists s1. split; [exact E1 | exact R1]. }
  destruct D1 as (s1 & E1 & R1).
  unfold sameRefs in R1. cbn [isDrawing lastPoint distRemainder strokeEnds pendingImages
                              stamps canvas] in R1.
  destruct R1 as (A1 & L1 & M1 & _ & _ & T1 & C1 & C2).
  destruct (canvas s1) as [cv1|] eqn:V1; [| discriminate].
  cbn in C1, C2. injection C1 as C1. injection C2 as C2.
  pose proof (segmentLength_fin (5 - 0) (5 - 0) (5 - 0) (5 - 0)
                (Some (Fin (1 / 2))) (Some (Fin (1 / 2))) (Some (Fin 0)) (Some (Fin 0))) as SL.
  rewrite euclid_same in SL. fold p in SL.
  destruct (interpolate_zero_length_zero_carry st rnd (5 - 0) (5 - 0)
              (Some (Fin (1 / 2))) (Some (Fin (1 / 2))) (Some (Fin 0)) (Some (Fin 0))
              s1 2 M1 ltac:(lia)) as (Z & I).
  fold p in Z, I.
  destruct (drawStamp_nan_hard st rnd s1 cv1 V1) as (s' & c' & N & _); try (cbn; lra).
  { discriminate. }
  assert (EQ : interpolate st rnd 2 p p s1
               = Ret tt (withDistRemainder (Num.sub (Fin (0 + stepSize st)) (Fin 0)) s')).
  { unfold interpolate. cbv zeta. rewrite SL.
    unfold bind at 1. unfold get at 1. rewrite M1.
    cbn [interpolateLoop Num.le]. rewrite leb_true by lra.
    assert (Q : Num.div (Fin 0) (Fin 0) = NaN)
      by (cbn; rewrite eqb_true by reflexivity; reflexivity).
    rewrite Q, !mul_NaN_r, !add_NaN_r. fold nanStamp.
    unfold bind. rewrite N.
    cbn [Num.add Num.le]. rewrite leb_false by (rewrite SD; lra).
    reflexivity. }
  assert (I2 : exists s2, interpolate st rnd 2 p p s1 = Ret tt s2 /\
                          stamps s2 = [p; nanStamp] /\ distRemainder s2 = Fin 1).
  { rewrite EQ in I. destruct I as [I1 I2].
    eexists. split; [exact EQ |]. split.
    - rewrite I1, T1. reflexivity.
    - rewrite I2, SD. f_equal. lra. }
  destruct I2 as (s2 & E2 & T2 & M2).
  exists s1, s2.
  split; [unfold dispatch, handler; fold st rnd; rewrite E1; reflexivity |].
  split; [exact L1 |]. split; [exact M1 |]. split; [exact SL |].
  split; [rewrite M1; exact Z |]. split; [exact E2 |].
  split; [| split; assumption].
  unfold dispatch, handler, continueDrawing.
  unfold bind at 1. unfold get at 1. unfold bind at 1. unfold get at 1.
  rewrite A1, L1.
  assert (G1 : getCoordinates e s1 = Ret p s1).
  { rewrite (getCoordinates_mounted e s1 cv1 V1). rewrite C1, C2. cbn.
    rewrite eqb_true by reflexivity. reflexivity. }
  unfold bind at 1. rewrite G1. cbn [tool st defaultSettings ToolType_eqb].
  unfold bind. fold st rnd. rewrite E2. reflexivity.
Qed.

(** ** A move split into sub-moves *)




Lemma euclid_scaled (x0 y0 dx dy k : R) :
  0 <= k ->
  Canvas2D.euclid x0 y0 (x0 + k * dx) (y0 + k * dy) = k * R_sqrt.sqrt (dx * dx + dy * dy).
Proof.
  intros K. unfold Canvas2D.euclid.
  replace ((x0 + k * dx - x0) * (x0 + k * dx - x0) + (y0 + k * dy - y0) * (y0 + k * dy - y0))
    with (Rsqr k * (dx * dx + dy * dy)) by (unfold Rsqr; ring).
  rewrite sqrt_mult.
  - rewrite sqrt_Rsqr by exact K. reflexivity.
  - apply Rle_0_sqr.
  - pose proof (Rle_0_sqr dx) as A. pose proof (Rle_0_sqr dy) as B.
    unfold Rsqr in A, B. lra.
Qed.

Lemma gap_along (p q : Sample) (u v : R) :
  u <= v -> gap (along p q u) (along p q v) = (v - u) * gap p q.
Proof.
  intros L. unfold gap, along. cbn [sx sy].
  replace (sx p + v * (sx q - sx p))
    with (sx p + u * (sx q - sx p) + (v - u) * (sx q - sx p)) by ring.
  replace (sy p + v * (sy q - sy p))
    with (sy p + u * (sy q - sy p) + (v - u) * (sy q - sy p)) by ring.
  rewrite euclid_scaled by lra. reflexivity.
Qed.

Lemma gap_along_end (p q : Sample) (u : R) :
  u <= 1 -> gap (along p q u) q = (1 - u) * gap p q.
Proof.
  intros L. rewrite <- (gap_along p q u 1 L).
  unfold gap, along. cbn [sx sy]. f_equal; ring.
Qed.

(** The sub-moves through points taken in order along the segment from
    [p] to [q] have its length in total. *)
Lemma pathLength_along (p q : Sample) (us : list R) :
  forall u0, ascending u0 us ->
    pathLength (along p q u0) (map (along p q) us ++ [q]) = (1 - u0) * gap p q.
Proof.
  induction us as [| u us IH]; intros u0 A; cbn [map app pathLength ascending] in *.
  - rewrite gap_along_end by exact A. ring.
  - destruct A as [A1 A2]. rewrite gap_along by exact A1. rewrite (IH u A2). ring.
Qed.

Lemma split_along_line (p q : Sample) (us : list R) :
  ascending 0 us ->
  pathLength p (map (along p q) us ++ [q]) = gap p q.
Proof.
  intros A.
  assert (E : forall rest, pathLength p rest = pathLength (along p q 0) rest).
  { intros [| r rest]; [reflexivity |]. cbn [pathLength]. f_equal.
    unfold gap, along. cbn [sx sy]. f_equal; ring. }
  rewrite E, (pathLength_along p q us 0 A). ring.
Qed.

Section Path.

Variable st : DrawingSettings.
Variable rnd : nat -> R.
Hypothesis size_nonneg : 0 <= size st.
Hypothesis hardness_nonneg : hardness st < 1 -> 0 <= hardness st.



End Path.



